(** * categorizador.js: grouping of supermarket product listings

    A shallow embedding of [normalizeTitle], [generateProductKey] and
    [categorizeProducts] of [src/categorizador.js], and the properties of
    the grouping that the specification states about them.

    A JavaScript string is a sequence of UTF-16 code units; it is modelled
    as a list of code units, each a number in [N].  The [String] methods
    that depend on the Unicode character database ([toLowerCase] and
    [normalize('NFD')]) belong to the runtime, not to the program: they are
    an interface ([StringRuntime]) with the facts that the proofs use
    ([RuntimeLaws]), and one instance built from the tables of the Basic
    Latin and Latin-1 Supplement blocks ([latin1_runtime]). *)

From Stdlib Require Import List NArith Arith Lia Bool String Ascii Permutation.
From Stdlib Require DecimalString.
Import ListNotations.

Local Open Scope N_scope.

(** ** JavaScript strings *)

Definition jsstring := list N.

(** An ASCII literal as a JavaScript string. *)
Definition str (s : string) : jsstring :=
  map N_of_ascii (list_ascii_of_string s).

Fixpoint str_eqb (a b : jsstring) : bool :=
  match a, b with
  | [], [] => true
  | x :: a', y :: b' => (x =? y) && str_eqb a' b'
  | _, _ => false
  end.

(** [\s] of a regular expression, which is also what [trim] removes:
    WhiteSpace and LineTerminator of ECMA-262. *)
Definition isSpace (c : N) : bool :=
  ((9 <=? c) && (c <=? 13)) || (c =? 32) || (c =? 0xA0) || (c =? 0x1680)
  || ((0x2000 <=? c) && (c <=? 0x200A)) || (c =? 0x2028) || (c =? 0x2029)
  || (c =? 0x202F) || (c =? 0x205F) || (c =? 0x3000) || (c =? 0xFEFF).

(** [\d] of a regular expression: the ASCII digits. *)
Definition isDigit (c : N) : bool := (48 <=? c) && (c <=? 57).

(** The class [U+0300-U+036F]: the block of combining diacritical marks. *)
Definition isMark (c : N) : bool := (0x300 <=? c) && (c <=? 0x36F).

(** [[kgl]] under the [i] flag. *)
Definition isUnit (c : N) : bool :=
  (c =? 107) || (c =? 103) || (c =? 108) || (c =? 75) || (c =? 71) || (c =? 76).

Fixpoint startsWith (pat s : jsstring) : bool :=
  match pat with
  | [] => true
  | a :: pat' =>
      match s with
      | [] => false
      | b :: s' => (a =? b) && startsWith pat' s'
      end
  end.

(** [s.includes(pat)] *)
Fixpoint includes (pat s : jsstring) : bool :=
  match s with
  | [] => startsWith pat []
  | _ :: s' => startsWith pat s || includes pat s'
  end.

(** [s.replace(/pat/g, rep)] for a literal, non-empty [pat]: the matches
    are found from left to right and do not overlap.  [skip] counts the
    code units of the current match that are still to be consumed. *)
Fixpoint replaceFrom (pat rep : jsstring) (skip : nat) (s : jsstring) : jsstring :=
  match s with
  | [] => []
  | c :: s' =>
      match skip with
      | S k => replaceFrom pat rep k s'
      | O =>
          if startsWith pat s
          then rep ++ replaceFrom pat rep (pred (List.length pat)) s'
          else c :: replaceFrom pat rep O s'
      end
  end.

Definition replaceAll (pat rep s : jsstring) : jsstring := replaceFrom pat rep O s.

(** [s.replace(/[U+0300-U+036F]/g, '')] *)
Definition stripMarks (s : jsstring) : jsstring :=
  filter (fun c => negb (isMark c)) s.

(** [s.replace(/[-]/g, ' ')] *)
Definition replaceHyphens (s : jsstring) : jsstring :=
  map (fun c => if c =? 45 then 32 else c) s.

(** [s.replace(/\s+/g, ' ')]: a white space code unit that is followed by
    another one belongs to the same run and is dropped; the last one of a
    run becomes the space. *)
Fixpoint collapseSpaces (s : jsstring) : jsstring :=
  match s with
  | [] => []
  | c :: s' =>
      if isSpace c then
        match s' with
        | d :: _ => if isSpace d then collapseSpaces s' else 32 :: collapseSpaces s'
        | [] => [32]
        end
      else c :: collapseSpaces s'
  end.

Definition noSpace (s : jsstring) : bool := forallb (fun c => negb (isSpace c)) s.

Fixpoint dropWhile (f : N -> bool) (s : jsstring) : jsstring :=
  match s with
  | [] => []
  | c :: s' => if f c then dropWhile f s' else s
  end.

Fixpoint takeWhile (f : N -> bool) (s : jsstring) : jsstring :=
  match s with
  | [] => []
  | c :: s' => if f c then c :: takeWhile f s' else []
  end.

(** [s.trim()] *)
Definition trim (s : jsstring) : jsstring :=
  rev (dropWhile isSpace (rev (dropWhile isSpace s))).

(** ** The runtime's Unicode methods *)

Class StringRuntime := {
  toLowerCase : jsstring -> jsstring;
  normalizeNFD : jsstring -> jsstring
}.

(** Lower case of a code unit of Basic Latin or Latin-1 Supplement (the
    combining marks have no case). *)
Definition lowerUnit (c : N) : N :=
  if (65 <=? c) && (c <=? 90) then c + 32
  else if (0xC0 <=? c) && (c <=? 0xDE) && negb (c =? 0xD7) then c + 32
  else c.

(** The combining marks of the accents of Latin-1 Supplement. *)
Definition grave : N := 0x300.
Definition acute : N := 0x301.
Definition circumflex : N := 0x302.
Definition tilde : N := 0x303.
Definition diaeresis : N := 0x308.
Definition ringAbove : N := 0x30A.
Definition cedilla : N := 0x327.

(** Canonical decomposition of the lower case letters of Latin-1
    Supplement, [0xE0] to [0xFF]; [None] where there is none. *)
Definition decompLower (c : N) : option (N * N) :=
  if c =? 0xE0 then Some (97, grave) else if c =? 0xE1 then Some (97, acute)
  else if c =? 0xE2 then Some (97, circumflex) else if c =? 0xE3 then Some (97, tilde)
  else if c =? 0xE4 then Some (97, diaeresis) else if c =? 0xE5 then Some (97, ringAbove)
  else if c =? 0xE7 then Some (99, cedilla)
  else if c =? 0xE8 then Some (101, grave) else if c =? 0xE9 then Some (101, acute)
  else if c =? 0xEA then Some (101, circumflex) else if c =? 0xEB then Some (101, diaeresis)
  else if c =? 0xEC then Some (105, grave) else if c =? 0xED then Some (105, acute)
  else if c =? 0xEE then Some (105, circumflex) else if c =? 0xEF then Some (105, diaeresis)
  else if c =? 0xF1 then Some (110, tilde)
  else if c =? 0xF2 then Some (111, grave) else if c =? 0xF3 then Some (111, acute)
  else if c =? 0xF4 then Some (111, circumflex) else if c =? 0xF5 then Some (111, tilde)
  else if c =? 0xF6 then Some (111, diaeresis)
  else if c =? 0xF9 then Some (117, grave) else if c =? 0xFA then Some (117, acute)
  else if c =? 0xFB then Some (117, circumflex) else if c =? 0xFC then Some (117, diaeresis)
  else if c =? 0xFD then Some (121, acute) else if c =? 0xFF then Some (121, diaeresis)
  else None.

(** Canonical decomposition of a code unit of Basic Latin or Latin-1
    Supplement: an upper case letter [0xC0] to [0xDE] decomposes as its
    lower case one does, with the upper case base letter; there is no
    upper case [0xFF]. *)
Definition decompUnit (c : N) : jsstring :=
  if (0xC0 <=? c) && (c <=? 0xDE) then
    match decompLower (c + 32) with
    | Some (b, m) => [b - 32; m]
    | None => [c]
    end
  else
    match decompLower c with
    | Some (b, m) => [b; m]
    | None => [c]
    end.

(** The code units that the two tables describe. *)
Definition inTables (c : N) : bool := (c <=? 0xFF) || isMark c.

(** What the proofs use of the runtime.  On a string of the blocks Basic
    Latin, Latin-1 Supplement and Combining Diacritical Marks,
    [toLowerCase] maps each code unit by [lowerUnit], and [normalize('NFD')]
    decomposes each letter by [decompUnit], up to the order and the form of
    the marks, which are deleted next, and stays in these blocks.  The
    result of [normalize('NFD')] holds no letter that has a decomposition,
    whatever the string. *)
Class RuntimeLaws (R : StringRuntime) : Prop := {
  toLowerCase_tables :
    forall s, forallb inTables s = true -> toLowerCase s = map lowerUnit s;
  normalizeNFD_tables :
    forall s, forallb inTables s = true ->
      stripMarks (normalizeNFD s) = stripMarks (flat_map decompUnit s);
  normalizeNFD_inTables :
    forall s, forallb inTables s = true -> forallb inTables (normalizeNFD s) = true;
  normalizeNFD_decomposed :
    forall s c, In c (normalizeNFD s) -> decompUnit c = [c]
}.

(** The runtime restricted to the tables: other code units are kept, as
    the runtime keeps those that have no case and no decomposition. *)
Instance latin1_runtime : StringRuntime := {
  toLowerCase := map lowerUnit;
  normalizeNFD := flat_map decompUnit
}.

(** ** The program *)

Section Program.

Context {R : StringRuntime}.

(** [normalizeTitle], lines 56-66. *)
Definition normalizeTitle (title : jsstring) : jsstring :=
  trim
    (replaceAll (str "quilo") (str "kg")
      (replaceAll (str "litro") (str "l")
        (collapseSpaces
          (replaceHyphens
            (stripMarks
              (normalizeNFD
                (toLowerCase title))))))).

(** [/(\d+)\s*([kgl])/i] tried at the start of [s].  [\d+] and [\s*] are
    greedy; giving back one of their code units never helps, since what
    follows [\d+] is no digit and what follows [\s*] is no white space. *)
Definition sizeRegexAt (s : jsstring) : option (jsstring * N) :=
  match takeWhile isDigit s with
  | [] => None
  | ds =>
      match dropWhile isSpace (dropWhile isDigit s) with
      | u :: _ => if isUnit u then Some (ds, u) else None
      | [] => None
      end
  end.

(** [normalizedTitle.match(sizeRegex)]: the leftmost match, as its two
    groups. *)
Fixpoint sizeRegexMatch (s : jsstring) : option (jsstring * N) :=
  match s with
  | [] => None
  | _ :: s' =>
      match sizeRegexAt s with
      | Some m => Some m
      | None => sizeRegexMatch s'
      end
  end.

(** The marker spelled with a tilde: "feij", a with tilde, "o". *)
Definition feijaoTilde : jsstring := str "feij" ++ [0xE3] ++ str "o".

Record Features := {
  productType : jsstring;
  brand : jsstring;
  variant : jsstring;
  size : jsstring
}.

(** Lines 81-129: type, then variant and brand of that type. *)
Definition classify (t : jsstring) : jsstring * jsstring * jsstring :=
  if includes (str "leite") t then
    (str "leite",
     (if includes (str "piracanjuba") t then str "piracanjuba"
      else if includes (str "italac") t then str "italac"
      else if includes (str "parmalat") t then str "parmalat"
      else []),
     (if includes (str "integral") t then str "integral"
      else if includes (str "semi desnatado") t || includes (str "semi-desnatado") t
           then str "semi desnatado"
      else if includes (str "desnatado") t then str "desnatado"
      else []))
  else if includes (str "arroz") t then
    (str "arroz",
     (if includes (str "tio joao") t then str "tio joao" else []),
     (if includes (str "branco") t then str "branco"
      else if includes (str "integral") t then str "integral"
      else []))
  else if includes (str "feijao") t || includes feijaoTilde t then
    (str "feijao",
     (if includes (str "camil") t then str "camil" else []),
     (if includes (str "carioca") t then str "carioca" else []))
  else ([], [], []).

(** Lines 131-136. *)
Definition sizeToken (t : jsstring) : jsstring :=
  match sizeRegexMatch t with
  | Some (digits, unit) => digits ++ toLowerCase [unit]
  | None => []
  end.

Definition extractFeatures (t : jsstring) : Features :=
  let '(ty, br, va) := classify t in
  {| productType := ty; brand := br; variant := va; size := sizeToken t |}.

Definition keyOf (f : Features) : jsstring :=
  productType f ++ str "-" ++ brand f ++ str "-" ++ variant f ++ str "-" ++ size f.

(** [generateProductKey], lines 73-140. *)
Definition generateProductKey (normalizedTitle : jsstring) : jsstring :=
  keyOf (extractFeatures normalizedTitle).

End Program.

(** ** Records and the insertion-ordered [Map] of [categorizeProducts] *)

(** An input record; [categorizeProducts] reads [title] and [supermarket]. *)
Module Product.
Record t := { id : N; title : jsstring; supermarket : jsstring }.
End Product.

(** [productInfo]: the record without its id. *)
Module ProductInfo.
Record t := { title : jsstring; supermarket : jsstring }.
End ProductInfo.

(** A value of [categoriesMap]. *)
Module Entry.
Record t := { category : jsstring; products : list ProductInfo.t }.
End Entry.

(** An element of the result. *)
Module Category.
Record t := { category : jsstring; count : nat; products : list ProductInfo.t }.
End Category.

(** A [Map] keeps its keys in insertion order: a list of bindings without
    duplicate keys. *)
Definition jsmap := list (jsstring * Entry.t).

Definition mapHas (key : jsstring) (m : jsmap) : bool :=
  existsb (fun b => str_eqb (fst b) key) m.

(** [m.set(key, value)]: a present key keeps its place, a new one goes
    last. *)
Fixpoint mapSet (key : jsstring) (value : Entry.t) (m : jsmap) : jsmap :=
  match m with
  | [] => [(key, value)]
  | (k, v) :: m' =>
      if str_eqb k key then (key, value) :: m' else (k, v) :: mapSet key value m'
  end.

(** [m.get(key).products.push(info)]: the array of the binding is
    extended in place. *)
Fixpoint mapPush (key : jsstring) (info : ProductInfo.t) (m : jsmap) : jsmap :=
  match m with
  | [] => []
  | (k, v) :: m' =>
      if str_eqb k key
      then (k, {| Entry.category := Entry.category v;
                  Entry.products := Entry.products v ++ [info] |}) :: m'
      else (k, v) :: mapPush key info m'
  end.

Section Aggregation.

Context {R : StringRuntime}.

Definition productKey (product : Product.t) : jsstring :=
  generateProductKey (normalizeTitle (Product.title product)).

Definition productInfo (product : Product.t) : ProductInfo.t :=
  {| ProductInfo.title := Product.title product;
     ProductInfo.supermarket := Product.supermarket product |}.

(** The body of the [forEach], lines 18-37. *)
Definition addProduct (categoriesMap : jsmap) (product : Product.t) : jsmap :=
  let key := productKey product in
  if mapHas key categoriesMap
  then mapPush key (productInfo product) categoriesMap
  else mapSet key {| Entry.category := Product.title product;
                     Entry.products := [productInfo product] |} categoriesMap.

Definition buildMap (products : list Product.t) : jsmap :=
  fold_left addProduct products [].

Definition toCategory (category : Entry.t) : Category.t :=
  {| Category.category := Entry.category category;
     Category.count := List.length (Entry.products category);
     Category.products := Entry.products category |}.

(** [categorizeProducts], lines 13-49. *)
Definition categorizeProducts (products : list Product.t) : list Category.t :=
  map toCategory (map snd (buildMap products)).

End Aggregation.

(** ** The specification's side *)

Section Specification.

Context {R : StringRuntime}.

(** The blocks of combining marks of Unicode: Combining Diacritical Marks
    with its Extended and Supplement blocks, Combining Diacritical Marks
    for Symbols, and Combining Half Marks. *)
Definition isCombiningMark (c : N) : bool :=
  isMark c
  || ((0x1AB0 <=? c) && (c <=? 0x1AFF)) || ((0x1DC0 <=? c) && (c <=? 0x1DFF))
  || ((0x20D0 <=? c) && (c <=? 0x20FF)) || ((0xFE20 <=? c) && (c <=? 0xFE2F)).

Definition stripCombiningMarks (s : jsstring) : jsstring :=
  filter (fun c => negb (isCombiningMark c)) s.

(** The steps in the order in which the specification lists them: the
    unit words are abbreviated before the white space is collapsed.
    [strip] is the deletion of the marks of the second step. *)
Definition normalizeInOrder (strip : jsstring -> jsstring) (title : jsstring) : jsstring :=
  let lowered := toLowerCase title in
  let unaccented := strip (normalizeNFD lowered) in
  let unhyphenated := replaceHyphens unaccented in
  let abbreviated :=
    replaceAll (str "quilo") (str "kg") (replaceAll (str "litro") (str "l") unhyphenated) in
  let collapsed := collapseSpaces abbreviated in
  trim collapsed.

(** The normalizer of the specification: its second step deletes all
    combining marks. *)
Definition normalizeSpec (title : jsstring) : jsstring :=
  normalizeInOrder stripCombiningMarks title.

(** A row of the table of category rules: the markers of the type, and
    for the variant and the brand the alternatives in their order, each
    with the markers that select it. *)
Record Rule := {
  ruleType : jsstring;
  typeMarkers : list jsstring;
  variantMarkers : list (list jsstring * jsstring);
  brandMarkers : list (list jsstring * jsstring)
}.

Definition categoryRules : list Rule :=
  [ {| ruleType := str "leite";
       typeMarkers := [str "leite"];
       variantMarkers :=
         [ ([str "integral"], str "integral");
           ([str "semi desnatado"; str "semi-desnatado"], str "semi desnatado");
           ([str "desnatado"], str "desnatado") ];
       brandMarkers :=
         [ ([str "piracanjuba"], str "piracanjuba");
           ([str "italac"], str "italac");
           ([str "parmalat"], str "parmalat") ] |};
    {| ruleType := str "arroz";
       typeMarkers := [str "arroz"];
       variantMarkers := [ ([str "branco"], str "branco"); ([str "integral"], str "integral") ];
       brandMarkers := [ ([str "tio joao"], str "tio joao") ] |};
    {| ruleType := str "feijao";
       typeMarkers := [str "feijao"; feijaoTilde];
       variantMarkers := [ ([str "carioca"], str "carioca") ];
       brandMarkers := [ ([str "camil"], str "camil") ] |} ].

Definition anyIncluded (markers : list jsstring) (t : jsstring) : bool :=
  existsb (fun m => includes m t) markers.

(** The first alternative one of whose markers is in the title; the empty
    token when there is none. *)
Definition firstToken (alternatives : list (list jsstring * jsstring)) (t : jsstring)
  : jsstring :=
  match find (fun a => anyIncluded (fst a) t) alternatives with
  | Some a => snd a
  | None => []
  end.

(** The priority chain: the first rule whose type marker is in the title
    decides the type, and the variant and the brand are looked up in that
    rule only. *)
Definition firstRule (rules : list Rule) (t : jsstring) : option Rule :=
  find (fun r => anyIncluded (typeMarkers r) t) rules.

Definition classifyByRules (rules : list Rule) (t : jsstring)
  : jsstring * jsstring * jsstring :=
  match firstRule rules t with
  | Some r => (ruleType r, firstToken (brandMarkers r) t, firstToken (variantMarkers r) t)
  | None => ([], [], [])
  end.



(** An occurrence of digits, optional white space and a unit letter in
    [t], after [pre]. *)
Definition SizeOccurrence (t pre digits spaces : jsstring) (unit : N) (post : jsstring)
  : Prop :=
  t = pre ++ digits ++ spaces ++ unit :: post
  /\ digits <> []
  /\ forallb isDigit digits = true
  /\ forallb isSpace spaces = true
  /\ isUnit unit = true.

(** The first occurrence: none starts earlier. *)
Definition FirstSizeOccurrence (t pre digits spaces : jsstring) (unit : N) (post : jsstring)
  : Prop :=
  SizeOccurrence t pre digits spaces unit post
  /\ forall pre' digits' spaces' unit' post',
       SizeOccurrence t pre' digits' spaces' unit' post' ->
       (List.length pre <= List.length pre')%nat.

Definition NoSizeOccurrence (t : jsstring) : Prop :=
  forall pre digits spaces unit post, ~ SizeOccurrence t pre digits spaces unit post.

(** The keys in the order in which they are first seen. *)
Fixpoint firstSeen (keys : list jsstring) : list jsstring :=
  match keys with
  | [] => []
  | k :: keys' => k :: filter (fun k' => negb (str_eqb k' k)) (firstSeen keys')
  end.

Definition hasKey (key : jsstring) (keys : list jsstring) : bool :=
  existsb (fun k => str_eqb k key) keys.

(** The records of a key, in input order. *)
Definition membersOf (key : jsstring) (products : list Product.t) : list Product.t :=
  filter (fun p => str_eqb (productKey p) key) products.

(** The category of a key: the title of the first record of the key, and
    of each of its records, in input order, the title and the supermarket. *)
Definition categoryOf (products : list Product.t) (key : jsstring) : Category.t :=
  let members := membersOf key products in
  {| Category.category :=
       match members with
       | first :: _ => Product.title first
       | [] => []
       end;
     Category.count := List.length members;
     Category.products :=
       map (fun member => {| ProductInfo.title := Product.title member;
                             ProductInfo.supermarket := Product.supermarket member |})
           members |}.

(** The aggregation as the specification describes its result. *)
Definition categorizeSpec (products : list Product.t) : list Category.t :=
  map (categoryOf products) (firstSeen (map productKey products)).

(** The binding of a key in [categoriesMap] once [products] are in. *)
Definition entryOf (products : list Product.t) (key : jsstring) : Entry.t :=
  let members := membersOf key products in
  {| Entry.category :=
       match members with
       | first :: _ => Product.title first
       | [] => []
       end;
     Entry.products := map productInfo members |}.

End Specification.

(** The number of members held by a map, and the sum of the counts. *)
Definition totalMembers (m : jsmap) : nat :=
  list_sum (map (fun b => List.length (Entry.products (snd b))) m).

Definition totalCount (categories : list Category.t) : nat :=
  list_sum (map Category.count categories).

(** Titles that differ only in letter case or in accent marks.  The
    accented forms of a lower case letter in Latin-1 Supplement; the upper
    case of a lower case letter is 32 below it. *)
Definition accentedForms (base : N) : list N :=
  if base =? 97 then [0xE0; 0xE1; 0xE2; 0xE3; 0xE4; 0xE5]
  else if base =? 99 then [0xE7]
  else if base =? 101 then [0xE8; 0xE9; 0xEA; 0xEB]
  else if base =? 105 then [0xEC; 0xED; 0xEE; 0xEF]
  else if base =? 110 then [0xF1]
  else if base =? 111 then [0xF2; 0xF3; 0xF4; 0xF5; 0xF6]
  else if base =? 117 then [0xF9; 0xFA; 0xFB; 0xFC]
  else if base =? 121 then [0xFD; 0xFF]
  else [].

Definition isLowerLetter (c : N) : bool :=
  ((97 <=? c) && (c <=? 122)) || ((0xE0 <=? c) && (c <=? 0xFE) && negb (c =? 0xF7)).

Inductive SameLetter : N -> N -> Prop :=
| same_unit c : inTables c = true -> SameLetter c c
| same_case c : isLowerLetter c = true -> SameLetter c (c - 32)
| same_accent base c : In c (accentedForms base) -> SameLetter base c
| same_sym c d : SameLetter c d -> SameLetter d c
| same_trans c d e : SameLetter c d -> SameLetter d e -> SameLetter c e.

(** Two titles that differ only in the case of their letters, in the
    accent of a letter, or in combining accents, [accent] telling which
    code units are combining accents. *)
Inductive SameTitle (accent : N -> bool) : jsstring -> jsstring -> Prop :=
| same_nil : SameTitle accent [] []
| same_letter c d a b :
    SameLetter c d -> SameTitle accent a b -> SameTitle accent (c :: a) (d :: b)
| same_mark_left m a b :
    accent m = true -> SameTitle accent a b -> SameTitle accent (m :: a) b
| same_mark_right m a b :
    accent m = true -> SameTitle accent a b -> SameTitle accent a (m :: b).

(** The base letter of a code unit of the tables: lower case, decomposed,
    without its mark. *)
Definition baseOf (c : N) : jsstring := stripMarks (decompUnit (lowerUnit c)).

Definition headIsSpace (s : jsstring) : bool :=
  match s with
  | c :: _ => isSpace c
  | [] => false
  end.

(** The strings that [collapseSpaces] leaves as they are: every white
    space code unit is a space and is not followed by white space. *)
Fixpoint collapsed (s : jsstring) : bool :=
  match s with
  | [] => true
  | c :: s' =>
      (if isSpace c then (c =? 32) && negb (headIsSpace s') else true) && collapsed s'
  end.

(** The code units that the first three steps of [normalizeTitle] leave
    as they are. *)
Definition stableUnit (c : N) : bool :=
  (lowerUnit c =? c) && str_eqb (decompUnit c) [c] && negb (isMark c) && inTables c.


(** ** More of the aggregation *)

Definition noHyphen (s : jsstring) : bool := forallb (fun c => negb (c =? 45)) s.

(** All the members that a map holds, binding after binding. *)
Definition allInfos (m : jsmap) : list ProductInfo.t :=
  flat_map (fun b => Entry.products (snd b)) m.

(** A category that has received further members. *)
Definition appendMembers (c : Category.t) (members : list ProductInfo.t) : Category.t :=
  {| Category.category := Category.category c;
     Category.count := Category.count c + List.length members;
     Category.products := Category.products c ++ members |}.

Section AggregationOfInfos.

Context {R : StringRuntime}.

Definition infoKey (info : ProductInfo.t) : jsstring :=
  generateProductKey (normalizeTitle (ProductInfo.title info)).

(** The body of the [forEach] as a function of what it reads of the
    record: its title and its supermarket. *)
Definition addInfo (categoriesMap : jsmap) (info : ProductInfo.t) : jsmap :=
  let key := infoKey info in
  if mapHas key categoriesMap
  then mapPush key info categoriesMap
  else mapSet key {| Entry.category := ProductInfo.title info;
                     Entry.products := [info] |} categoriesMap.

End AggregationOfInfos.

(** ** Values, errors and the records as [JSON.parse] gives them *)

(** What [JSON.parse] returns, and [undefined] for a property that an
    object does not have.  A number is a double, kept as its 64 bits: the
    program never looks inside one.  An object lists its own properties,
    each name once. *)
Unset Elimination Schemes.

Inductive value : Type :=
| VUndefined
| VNull
| VBool (b : bool)
| VNumber (bits : N)
| VString (s : jsstring)
| VArray (elements : list value)
| VObject (properties : list (jsstring * value)).

Set Elimination Schemes.

(** Why the runtime raises a [TypeError] in this program: a property is
    read from [undefined] or [null], or a property that is not a function
    is called. *)
Inductive typeError : Type :=
| CannotRead (property : jsstring)
| NotAFunction (property : jsstring).

(** An error: a [TypeError], or an error raised by a library function
    ([JSON.parse], [fs]) with its name and message. *)
Inductive error : Type :=
| TypeError (cause : typeError)
| LibraryError (name message : jsstring).

Inductive outcome (A : Type) : Type :=
| Returned (a : A)
| Threw (e : error).

Arguments Returned {A} a.
Arguments Threw {A} e.

Definition bind {A B} (x : outcome A) (f : A -> outcome B) : outcome B :=
  match x with
  | Returned a => f a
  | Threw e => Threw e
  end.

Notation "x <- c ;; k" := (bind c (fun x => k))
  (at level 61, c at next level, right associativity).

Fixpoint ownProperty (name : jsstring) (properties : list (jsstring * value)) : value :=
  match properties with
  | [] => VUndefined
  | (k, v) :: rest => if str_eqb k name then v else ownProperty name rest
  end.

(** [v.name] for a name that no prototype defines, as "title" and
    "supermarket": the own property of an object, [undefined] on the other
    values, a [TypeError] on [undefined] and [null]. *)
Definition getProperty (name : jsstring) (v : value) : outcome value :=
  match v with
  | VUndefined | VNull => Threw (TypeError (CannotRead name))
  | VObject properties => Returned (ownProperty name properties)
  | _ => Returned VUndefined
  end.

(** The receiver of [title.toLowerCase()] in [normalizeTitle]: only a
    string has the method; what [JSON.parse] returns holds no function. *)
Definition stringReceiver (title : value) : outcome jsstring :=
  match title with
  | VString s => Returned s
  | VUndefined | VNull => Threw (TypeError (CannotRead (str "toLowerCase")))
  | _ => Threw (TypeError (NotAFunction (str "toLowerCase")))
  end.

Module DynInfo.
Record t := { title : jsstring; supermarket : value }.
End DynInfo.

Module DynEntry.
Record t := { category : jsstring; products : list DynInfo.t }.
End DynEntry.

Module DynCategory.
Record t := { category : jsstring; count : nat; products : list DynInfo.t }.
End DynCategory.

Definition dynmap := list (jsstring * DynEntry.t).

Module Dynamic.

Definition mapHas (key : jsstring) (m : dynmap) : bool :=
  existsb (fun b => str_eqb (fst b) key) m.

Fixpoint mapSet (key : jsstring) (entry : DynEntry.t) (m : dynmap) : dynmap :=
  match m with
  | [] => [(key, entry)]
  | (k, v) :: m' =>
      if str_eqb k key then (key, entry) :: m' else (k, v) :: mapSet key entry m'
  end.

Fixpoint mapPush (key : jsstring) (info : DynInfo.t) (m : dynmap) : dynmap :=
  match m with
  | [] => []
  | (k, v) :: m' =>
      if str_eqb k key
      then (k, {| DynEntry.category := DynEntry.category v;
                  DynEntry.products := DynEntry.products v ++ [info] |}) :: m'
      else (k, v) :: mapPush key info m'
  end.

Section WithRuntime.

Context {R : StringRuntime}.

(** The body of the [forEach], lines 18-37, on any value: reading the
    title of [undefined] or [null] fails, and so does normalizing a title
    that is not a string. *)
Definition addProduct (categoriesMap : dynmap) (product : value) : outcome dynmap :=
  title <- getProperty (str "title") product ;;
  titleString <- stringReceiver title ;;
  let normalizedTitle := normalizeTitle titleString in
  let key := generateProductKey normalizedTitle in
  supermarket <- getProperty (str "supermarket") product ;;
  let productInfo := {| DynInfo.title := titleString;
                        DynInfo.supermarket := supermarket |} in
  if mapHas key categoriesMap
  then Returned (mapPush key productInfo categoriesMap)
  else Returned (mapSet key {| DynEntry.category := titleString;
                               DynEntry.products := [productInfo] |} categoriesMap).

(** [elements.forEach(...)]: the first failure ends the loop. *)
Fixpoint forEach (elements : list value) (categoriesMap : dynmap) : outcome dynmap :=
  match elements with
  | [] => Returned categoriesMap
  | product :: rest =>
      categoriesMap' <- addProduct categoriesMap product ;;
      forEach rest categoriesMap'
  end.

Definition toCategory (category : DynEntry.t) : DynCategory.t :=
  {| DynCategory.category := DynEntry.category category;
     DynCategory.count := List.length (DynEntry.products category);
     DynCategory.products := DynEntry.products category |}.

(** [categorizeProducts], lines 13-49, on any value: only an array has
    [forEach]. *)
Definition categorizeProducts (products : value) : outcome (list DynCategory.t) :=
  match products with
  | VArray elements =>
      categoriesMap <- forEach elements [] ;;
      Returned (map toCategory (map snd categoriesMap))
  | VUndefined | VNull => Threw (TypeError (CannotRead (str "forEach")))
  | _ => Threw (TypeError (NotAFunction (str "forEach")))
  end.

End WithRuntime.

End Dynamic.

(** A record that [categorizeProducts] accepts: an object whose title is
    a string. *)
Definition isProduct (v : value) : bool :=
  match v with
  | VObject properties =>
      match ownProperty (str "title") properties with
      | VString _ => true
      | _ => false
      end
  | _ => false
  end.

Definition isProductArray (v : value) : bool :=
  match v with
  | VArray elements => forallb isProduct elements
  | _ => false
  end.

(** A record read through [supermarketOf], which tells the supermarket
    that a value stands for. *)
Definition productOf (supermarketOf : value -> jsstring) (v : value) : Product.t :=
  match v with
  | VObject properties =>
      {| Product.id :=
           match ownProperty (str "id") properties with
           | VNumber bits => bits
           | _ => 0
           end;
         Product.title :=
           match ownProperty (str "title") properties with
           | VString s => s
           | _ => []
           end;
         Product.supermarket := supermarketOf (ownProperty (str "supermarket") properties) |}
  | _ => {| Product.id := 0; Product.title := []; Product.supermarket := [] |}
  end.

Definition infoOf (supermarketOf : value -> jsstring) (info : DynInfo.t) : ProductInfo.t :=
  {| ProductInfo.title := DynInfo.title info;
     ProductInfo.supermarket := supermarketOf (DynInfo.supermarket info) |}.

Definition entryOfDyn (supermarketOf : value -> jsstring) (e : DynEntry.t) : Entry.t :=
  {| Entry.category := DynEntry.category e;
     Entry.products := map (infoOf supermarketOf) (DynEntry.products e) |}.

Definition categoryOfDyn (supermarketOf : value -> jsstring) (c : DynCategory.t)
  : Category.t :=
  {| Category.category := DynCategory.category c;
     Category.count := DynCategory.count c;
     Category.products := map (infoOf supermarketOf) (DynCategory.products c) |}.

Definition mapOfDyn (supermarketOf : value -> jsstring) (m : dynmap) : jsmap :=
  map (fun b => (fst b, entryOfDyn supermarketOf (snd b))) m.

(** The supermarket of a record that holds it as a string. *)
Definition stringOf (v : value) : jsstring :=
  match v with
  | VString s => s
  | _ => []
  end.

(** A typed record as the value that [JSON.parse] gives for it. *)
Definition valueOfProduct (p : Product.t) : value :=
  VObject [ (str "id", VNumber (Product.id p));
            (str "title", VString (Product.title p));
            (str "supermarket", VString (Product.supermarket p)) ].

(** ** The file, the console and the process *)

(** The library functions of Node that [processJsonFile] and [main] call.
    A write that fails may still have changed the file system. *)
Class NodeRuntime := {
  FileSystem : Type;
  existsSync : FileSystem -> jsstring -> bool;
  readFileSync : FileSystem -> jsstring -> outcome jsstring;
  writeFileSync : FileSystem -> jsstring -> jsstring -> FileSystem * option error;
  JSON_parse : jsstring -> outcome value;
  JSON_stringify : list DynCategory.t -> jsstring;
  typeErrorMessage : typeError -> jsstring;
  cwd : jsstring;
  pathJoin : jsstring -> jsstring -> jsstring
}.

(** [error.message] *)
Definition errorMessage {node : NodeRuntime} (e : error) : jsstring :=
  match e with
  | TypeError cause => typeErrorMessage cause
  | LibraryError _ message => message
  end.

(** The decimal digits of a length. *)
Definition decimal (n : nat) : jsstring :=
  str (DecimalString.NilEmpty.string_of_uint (Nat.to_uint n)).

Section Shell.

Context {R : StringRuntime} {node : NodeRuntime}.

(** What the program can change: the files and the two streams of the
    console, line by line. *)
Record World := {
  fileSystem : FileSystem;
  stdout : list jsstring;
  stderr : list jsstring
}.

(** A computation that changes the world and returns or throws. *)
Definition io (A : Type) : Type := World -> World * outcome A.

Definition ret {A} (a : A) : io A := fun w => (w, Returned a).

Definition throw {A} (e : error) : io A := fun w => (w, Threw e).

Definition ioBind {A B} (x : io A) (f : A -> io B) : io B :=
  fun w =>
    match x w with
    | (w', Returned a) => f a w'
    | (w', Threw e) => (w', Threw e)
    end.

(** [try { body } catch (error) { handler }] *)
Definition tryCatch {A} (body : io A) (handler : error -> io A) : io A :=
  fun w =>
    match body w with
    | (w', Returned a) => (w', Returned a)
    | (w', Threw e) => handler e w'
    end.

Definition lift {A} (x : outcome A) : io A := fun w => (w, x).

Definition consoleLog (line : jsstring) : io unit :=
  fun w => ({| fileSystem := fileSystem w;
               stdout := stdout w ++ [line];
               stderr := stderr w |}, Returned tt).

Definition consoleError (line : jsstring) : io unit :=
  fun w => ({| fileSystem := fileSystem w;
               stdout := stdout w;
               stderr := stderr w ++ [line] |}, Returned tt).

Definition readFile (path : jsstring) : io jsstring :=
  fun w => (w, readFileSync (fileSystem w) path).

Definition writeFile (path data : jsstring) : io unit :=
  fun w =>
    let (fs, failure) := writeFileSync (fileSystem w) path data in
    ({| fileSystem := fs; stdout := stdout w; stderr := stderr w |},
     match failure with
     | None => Returned tt
     | Some e => Threw e
     end).

(** The lines that the program prints. *)
Definition savedLine (outputFilePath : jsstring) : jsstring :=
  str "Categoriza" ++ [0xE7; 0xE3] ++ str "o conclu" ++ [0xED]
  ++ str "da! Resultado salvo em " ++ outputFilePath.

Definition failureLine (e : error) : jsstring :=
  str "Erro ao processar o arquivo:" ++ str " " ++ errorMessage e.

Definition notFoundLine (inputPath : jsstring) : jsstring :=
  str "Erro: O arquivo " ++ inputPath ++ str " n" ++ [0xE3] ++ str "o foi encontrado.".

Definition usageLine : jsstring :=
  str "Uso: node categorizador.js [caminho-entrada] [caminho-saida]".

Definition processingLine (inputPath : jsstring) : jsstring :=
  str "Processando arquivo: " ++ inputPath.

Definition totalLine (categories : nat) : jsstring :=
  str "Total de categorias encontradas: " ++ decimal categories.

Definition headingLine : jsstring := str "Categorias:".

Definition categoryLine (category : DynCategory.t) : jsstring :=
  str "- " ++ DynCategory.category category ++ str ": "
  ++ decimal (DynCategory.count category) ++ str " produtos".

(** [processJsonFile], lines 147-169; [None] is an output path that the
    caller does not give. *)
Definition processJsonFile (inputFilePath : jsstring) (outputFilePath : option jsstring)
  : io (list DynCategory.t) :=
  let outputFilePath :=
    match outputFilePath with
    | Some path => path
    | None => str "resultado.json"
    end in
  tryCatch
    (ioBind (readFile inputFilePath) (fun rawData =>
     ioBind (lift (JSON_parse rawData)) (fun products =>
     ioBind (lift (Dynamic.categorizeProducts products)) (fun categorizedProducts =>
     ioBind (writeFile outputFilePath (JSON_stringify categorizedProducts)) (fun _ =>
     ioBind (consoleLog (savedLine outputFilePath)) (fun _ =>
     ret categorizedProducts))))))
    (fun error =>
     ioBind (consoleError (failureLine error)) (fun _ =>
     throw error)).

(** How [main] ends: it returns, [process.exit] stops the process, or an
    error leaves it. *)
Inductive termination : Type :=
| Completed
| Exited (code : N)
| Uncaught (e : error).

(** [args[i] || fallback]: an argument that is absent or empty gives the
    fallback. *)
Definition argumentOr (args : list jsstring) (i : nat) (fallback : jsstring) : jsstring :=
  match nth_error args i with
  | Some (c :: path) => c :: path
  | _ => fallback
  end.

Fixpoint logCategories (categories : list DynCategory.t) : io unit :=
  match categories with
  | [] => ret tt
  | category :: rest =>
      ioBind (consoleLog (categoryLine category)) (fun _ => logCategories rest)
  end.

(** [main], lines 174-202; [args] is [process.argv.slice(2)]. *)
Definition main (args : list jsstring) (w : World) : World * termination :=
  let defaultInputPath := pathJoin cwd (str "data01.json") in
  let defaultOutputPath := pathJoin cwd (str "resultado.json") in
  let inputPath := argumentOr args 0 defaultInputPath in
  let outputPath := argumentOr args 1 defaultOutputPath in
  if negb (existsSync (fileSystem w) inputPath) then
    let (w1, _) := consoleError (notFoundLine inputPath) w in
    let (w2, _) := consoleLog usageLine w1 in
    (w2, Exited 1)
  else
    let (w1, _) := consoleLog (processingLine inputPath) w in
    match processJsonFile inputPath (Some outputPath) w1 with
    | (w2, Threw e) => (w2, Uncaught e)
    | (w2, Returned result) =>
        let (w3, _) := consoleLog (totalLine (List.length result)) w2 in
        let (w4, _) := consoleLog headingLine w3 in
        let (w5, _) := logCategories result w4 in
        (w5, Completed)
    end.

End Shell.

(** The output path of [processJsonFile]: "resultado.json" when the
    caller gives none. *)
Definition outputPathOf (outputFilePath : option jsstring) : jsstring :=
  match outputFilePath with
  | Some path => path
  | None => str "resultado.json"
  end.

(** A small runtime for examples: the files are a list of paths with
    their contents, every write succeeds, and the only text that parses is
    "[]". *)
Fixpoint lookupFile (files : list (jsstring * jsstring)) (path : jsstring) : option jsstring :=
  match files with
  | [] => None
  | (p, data) :: rest => if str_eqb p path then Some data else lookupFile rest path
  end.

Instance exampleNode : NodeRuntime := {
  FileSystem := list (jsstring * jsstring);
  existsSync files path :=
    match lookupFile files path with Some _ => true | None => false end;
  readFileSync files path :=
    match lookupFile files path with
    | Some data => Returned data
    | None => Threw (LibraryError (str "Error") (str "ENOENT"))
    end;
  writeFileSync files path data := ((path, data) :: files, None);
  JSON_parse text :=
    if str_eqb text (str "[]") then Returned (VArray [])
    else Threw (LibraryError (str "SyntaxError") (str "Unexpected token"));
  JSON_stringify categories :=
    match categories with [] => str "[]" | _ => str "[...]" end;
  typeErrorMessage cause :=
    match cause with
    | CannotRead property => str "Cannot read properties of undefined"
    | NotAFunction property => property ++ str " is not a function"
    end;
  cwd := str "/work";
  pathJoin a b := a ++ str "/" ++ b
}.

(** * Proofs *)

(** ** Booleans and code units *)

Ltac to_prop :=
  repeat rewrite ?andb_true_iff, ?orb_true_iff, ?negb_true_iff,
    ?andb_false_iff, ?orb_false_iff, ?negb_false_iff,
    ?N.eqb_eq, ?N.eqb_neq, ?N.leb_le, ?N.leb_gt in *.

Lemma str_eqb_eq (a b : jsstring) : str_eqb a b = true <-> a = b.
Proof.
  revert b; induction a as [|x a IH]; intros [|y b]; simpl; split; intro H;
    try discriminate; try reflexivity.
  - apply andb_true_iff in H as [Hx Hab]. apply N.eqb_eq in Hx.
    apply IH in Hab. congruence.
  - injection H as -> ->. rewrite N.eqb_refl. simpl. now apply IH.
Qed.

Lemma str_eqb_refl (a : jsstring) : str_eqb a a = true.
Proof. now apply str_eqb_eq. Qed.

Lemma str_eqb_neq (a b : jsstring) : str_eqb a b = false <-> a <> b.
Proof.
  split; intro H.
  - intro E. apply str_eqb_eq in E. congruence.
  - destruct (str_eqb a b) eqn:E; [|reflexivity]. apply str_eqb_eq in E. contradiction.
Qed.

Lemma str_eqb_sym (a b : jsstring) : str_eqb a b = str_eqb b a.
Proof.
  destruct (str_eqb b a) eqn:E.
  - apply str_eqb_eq in E. subst. apply str_eqb_refl.
  - apply str_eqb_neq in E. apply str_eqb_neq. congruence.
Qed.

(** ** The aggregation *)

Section AggregationProofs.

Context {R : StringRuntime}.

Lemma mapPush_total key info m :
  mapHas key m = true -> totalMembers (mapPush key info m) = S (totalMembers m).
Proof.
  unfold totalMembers. induction m as [|[k v] m IH]; simpl; [discriminate|].
  destruct (str_eqb k key); simpl; intro H.
  - rewrite length_app. simpl. lia.
  - rewrite IH by exact H. lia.
Qed.

Lemma mapSet_absent key value m :
  mapHas key m = false -> mapSet key value m = m ++ [(key, value)].
Proof.
  induction m as [|[k v] m IH]; simpl; [reflexivity|].
  destruct (str_eqb k key); simpl; [discriminate|].
  intro H. now rewrite IH.
Qed.

Lemma totalMembers_app m1 m2 :
  totalMembers (m1 ++ m2) = (totalMembers m1 + totalMembers m2)%nat.
Proof. unfold totalMembers. now rewrite map_app, list_sum_app. Qed.

Lemma addProduct_total m product :
  totalMembers (addProduct m product) = S (totalMembers m).
Proof.
  unfold addProduct. destruct (mapHas (productKey product) m) eqn:H.
  - now apply mapPush_total.
  - rewrite mapSet_absent by exact H. rewrite totalMembers_app.
    unfold totalMembers at 2. simpl. lia.
Qed.

Lemma fold_addProduct_total products m :
  totalMembers (fold_left addProduct products m)
  = (totalMembers m + List.length products)%nat.
Proof.
  revert m; induction products as [|p ps IH]; intro m; simpl; [lia|].
  rewrite IH, addProduct_total. lia.
Qed.

Lemma totalCount_toCategory m :
  totalCount (map toCategory (map snd m)) = totalMembers m.
Proof.
  unfold totalCount, totalMembers. rewrite !map_map. reflexivity.
Qed.

End AggregationProofs.

(** C1: the counts of the categories returned by [categorizeProducts] add
    up to the number of input records, and the count of each category is
    the length of its list of products. *)
Theorem categorizeProducts_counts (R : StringRuntime) (products : list Product.t) :
  totalCount (categorizeProducts products) = List.length products
  /\ Forall (fun c => Category.count c = List.length (Category.products c))
       (categorizeProducts products).
Proof.
  split.
  - unfold categorizeProducts, buildMap.
    rewrite totalCount_toCategory, fold_addProduct_total. reflexivity.
  - unfold categorizeProducts. apply Forall_forall. intros c Hc.
    apply in_map_iff in Hc as [e [<- _]]. reflexivity.
Qed.

(** *** First-seen order *)

Section OrderProofs.

Context {R : StringRuntime}.


Lemma hasKey_In key keys : hasKey key keys = true <-> In key keys.
Proof.
  unfold hasKey. rewrite existsb_exists. split.
  - intros [k [Hk E]]. apply str_eqb_eq in E. now subst.
  - intro H. exists key. split; [exact H | apply str_eqb_refl].
Qed.

Lemma firstSeen_In key keys : In key (firstSeen keys) <-> In key keys.
Proof.
  induction keys as [|k keys IH]; simpl; [tauto|].
  rewrite filter_In, IH, negb_true_iff, str_eqb_neq.
  destruct (list_eq_dec N.eq_dec k key); [subst|]; intuition congruence.
Qed.

Lemma hasKey_firstSeen key keys : hasKey key (firstSeen keys) = hasKey key keys.
Proof.
  destruct (hasKey key keys) eqn:E.
  - apply (proj1 (hasKey_In _ _)) in E.
    now apply (proj2 (hasKey_In _ _)), (proj2 (firstSeen_In _ _)).
  - destruct (hasKey key (firstSeen keys)) eqn:E'; [|reflexivity].
    apply (proj1 (hasKey_In _ _)), (proj1 (firstSeen_In _ _)) in E'.
    apply (proj2 (hasKey_In _ _)) in E'. congruence.
Qed.

Lemma firstSeen_NoDup keys : NoDup (firstSeen keys).
Proof.
  induction keys as [|k keys IH]; simpl; constructor.
  - rewrite filter_In, negb_true_iff, str_eqb_neq. tauto.
  - now apply NoDup_filter.
Qed.

Lemma firstSeen_snoc keys key :
  firstSeen (keys ++ [key])
  = if hasKey key keys then firstSeen keys else firstSeen keys ++ [key].
Proof.
  induction keys as [|k keys IH]; simpl; [reflexivity|].
  rewrite IH. destruct (str_eqb k key) eqn:E; simpl.
  - apply str_eqb_eq in E. subst k.
    destruct (hasKey key keys); [reflexivity|].
    rewrite filter_app. simpl. rewrite str_eqb_refl. simpl.
    now rewrite app_nil_r.
  - destruct (hasKey key keys); [reflexivity|].
    rewrite filter_app. simpl. rewrite str_eqb_sym, E. reflexivity.
Qed.

Lemma mapHas_keys (e : jsstring -> Entry.t) key keys :
  mapHas key (map (fun k => (k, e k)) keys) = hasKey key keys.
Proof.
  unfold mapHas, hasKey. induction keys as [|k keys IH]; simpl; [reflexivity|].
  now rewrite IH.
Qed.

Lemma mapPush_keys (e : jsstring -> Entry.t) key info keys :
  NoDup keys ->
  mapPush key info (map (fun k => (k, e k)) keys)
  = map (fun k => (k, if str_eqb k key
                      then {| Entry.category := Entry.category (e k);
                              Entry.products := Entry.products (e k) ++ [info] |}
                      else e k)) keys.
Proof.
  induction 1 as [|k keys Hk Hnd IH]; simpl; [reflexivity|].
  destruct (str_eqb k key) eqn:E.
  - f_equal. apply map_ext_in. intros k' Hk'.
    destruct (str_eqb k' key) eqn:E'; [|reflexivity].
    apply str_eqb_eq in E, E'. congruence.
  - now rewrite IH.
Qed.

Lemma membersOf_snoc key products p :
  membersOf key (products ++ [p])
  = membersOf key products ++ (if str_eqb (productKey p) key then [p] else []).
Proof. unfold membersOf. rewrite filter_app. reflexivity. Qed.

Lemma membersOf_nonempty key products :
  In key (map productKey products) -> membersOf key products <> [].
Proof.
  intros H E. apply in_map_iff in H as [p [Hp Hin]].
  assert (In p (membersOf key products)) as Hm.
  { unfold membersOf. apply filter_In. split; [exact Hin|]. now apply str_eqb_eq. }
  rewrite E in Hm. contradiction.
Qed.

Lemma membersOf_absent key products :
  ~ In key (map productKey products) -> membersOf key products = [].
Proof.
  intro H. unfold membersOf. induction products as [|p ps IH]; simpl; [reflexivity|].
  destruct (str_eqb (productKey p) key) eqn:E.
  - apply str_eqb_eq in E. exfalso. apply H. simpl. now left.
  - apply IH. intro Hin. apply H. simpl. now right.
Qed.

(** The map after the loop, binding by binding. *)
Lemma buildMap_entries products :
  buildMap products
  = map (fun k => (k, entryOf products k)) (firstSeen (map productKey products)).
Proof.
  induction products as [|p ps IH] using rev_ind; [reflexivity|].
  unfold buildMap in *. rewrite fold_left_app. simpl. rewrite IH.
  unfold addProduct. rewrite mapHas_keys, hasKey_firstSeen, map_app. simpl.
  rewrite firstSeen_snoc.
  destruct (hasKey (productKey p) (map productKey ps)) eqn:Hhas.
  - rewrite mapPush_keys by apply firstSeen_NoDup.
    apply map_ext_in. intros k Hk. f_equal.
    unfold entryOf. rewrite membersOf_snoc.
    destruct (str_eqb k (productKey p)) eqn:E.
    + rewrite str_eqb_sym, E. simpl. rewrite map_app. simpl.
      apply (proj1 (firstSeen_In _ _)), membersOf_nonempty in Hk.
      destruct (membersOf k ps); [contradiction|reflexivity].
    + rewrite str_eqb_sym, E. simpl. now rewrite app_nil_r.
  - assert (~ In (productKey p) (map productKey ps)) as Hnot.
    { intro Hin. apply hasKey_In in Hin. congruence. }
    rewrite mapSet_absent.
    2:{ now rewrite mapHas_keys, hasKey_firstSeen. }
    rewrite map_app. simpl. f_equal.
    + apply map_ext_in. intros k Hk. f_equal. unfold entryOf.
      rewrite membersOf_snoc.
      destruct (str_eqb (productKey p) k) eqn:E.
      * apply str_eqb_eq in E. subst k.
        apply (proj1 (firstSeen_In _ _)) in Hk. contradiction.
      * now rewrite app_nil_r.
    + unfold entryOf. rewrite membersOf_snoc, str_eqb_refl.
      rewrite membersOf_absent by exact Hnot. reflexivity.
Qed.

Lemma categorizeProducts_spec products :
  categorizeProducts products = categorizeSpec products.
Proof.
  unfold categorizeProducts, categorizeSpec. rewrite buildMap_entries, !map_map.
  apply map_ext. intro k. unfold toCategory, entryOf, categoryOf. simpl.
  now rewrite length_map.
Qed.

End OrderProofs.

(** C5: [categorizeProducts] returns the categories in the order in which
    their keys are first seen, each with its members in input order, every
    member with the title and the supermarket of its record, and with the
    original title of its first member; for records [A; B; A'] where [A]
    and [A'] share a key that [B] has not, the members of the first
    category are [A; A'], without their ids, and its title is the title of
    [A]. *)
Theorem categorizeProducts_order (R : StringRuntime) :
  (forall products, categorizeProducts products = categorizeSpec products)
  /\ (forall A B A',
        productKey A = productKey A' ->
        productKey B <> productKey A ->
        categorizeProducts [A; B; A']
        = [ {| Category.category := Product.title A;
               Category.count := 2;
               Category.products :=
                 [ {| ProductInfo.title := Product.title A;
                      ProductInfo.supermarket := Product.supermarket A |};
                   {| ProductInfo.title := Product.title A';
                      ProductInfo.supermarket := Product.supermarket A' |} ] |};
            {| Category.category := Product.title B;
               Category.count := 1;
               Category.products :=
                 [ {| ProductInfo.title := Product.title B;
                      ProductInfo.supermarket := Product.supermarket B |} ] |} ]).
Proof.
  split; [exact categorizeProducts_spec|].
  intros A B A' HA HB. rewrite categorizeProducts_spec.
  unfold categorizeSpec, categoryOf, membersOf. simpl.
  rewrite <- HA. rewrite !str_eqb_refl.
  assert (str_eqb (productKey B) (productKey A) = false) as E
    by now apply str_eqb_neq.
  rewrite E. simpl. rewrite str_eqb_refl. rewrite str_eqb_sym, E. simpl.
  rewrite str_eqb_refl. reflexivity.
Qed.

Lemma categorizeProducts_order_witness :
  categorizeProducts (R := latin1_runtime)
    [ {| Product.id := 1; Product.title := str "Leite Integral Piracanjuba 1L";
         Product.supermarket := str "X" |};
      {| Product.id := 2; Product.title := str "Arroz Branco Tio Joao 5kg";
         Product.supermarket := str "Z" |};
      {| Product.id := 3; Product.title := str "LEITE INTEGRAL PIRACANJUBA 1l";
         Product.supermarket := str "Y" |} ]
  = [ {| Category.category := str "Leite Integral Piracanjuba 1L";
         Category.count := 2;
         Category.products :=
           [ {| ProductInfo.title := str "Leite Integral Piracanjuba 1L";
                ProductInfo.supermarket := str "X" |};
             {| ProductInfo.title := str "LEITE INTEGRAL PIRACANJUBA 1l";
                ProductInfo.supermarket := str "Y" |} ] |};
      {| Category.category := str "Arroz Branco Tio Joao 5kg";
         Category.count := 1;
         Category.products :=
           [ {| ProductInfo.title := str "Arroz Branco Tio Joao 5kg";
                ProductInfo.supermarket := str "Z" |} ] |} ].
Proof.
  apply (proj2 (categorizeProducts_order latin1_runtime)
           {| Product.id := 1; Product.title := str "Leite Integral Piracanjuba 1L";
              Product.supermarket := str "X" |}
           {| Product.id := 2; Product.title := str "Arroz Branco Tio Joao 5kg";
              Product.supermarket := str "Z" |}
           {| Product.id := 3; Product.title := str "LEITE INTEGRAL PIRACANJUBA 1l";
              Product.supermarket := str "Y" |}).
  - vm_compute. reflexivity.
  - vm_compute. discriminate.
Defined.

(** The scenario of the specification: two spellings of one milk and a
    rice. *)
Example categorizeProducts_scenario :
  categorizeProducts (R := latin1_runtime)
    [ {| Product.id := 1; Product.title := str "Leite Integral Piracanjuba 1L";
         Product.supermarket := str "X" |};
      {| Product.id := 2; Product.title := str "LEITE INTEGRAL PIRACANJUBA 1l";
         Product.supermarket := str "Y" |};
      {| Product.id := 3;
         Product.title := str "Arroz Branco Tio Jo" ++ [0xE3] ++ str "o 5kg";
         Product.supermarket := str "X" |} ]
  = [ {| Category.category := str "Leite Integral Piracanjuba 1L";
         Category.count := 2;
         Category.products :=
           [ {| ProductInfo.title := str "Leite Integral Piracanjuba 1L";
                ProductInfo.supermarket := str "X" |};
             {| ProductInfo.title := str "LEITE INTEGRAL PIRACANJUBA 1l";
                ProductInfo.supermarket := str "Y" |} ] |};
      {| Category.category := str "Arroz Branco Tio Jo" ++ [0xE3] ++ str "o 5kg";
         Category.count := 1;
         Category.products :=
           [ {| ProductInfo.title := str "Arroz Branco Tio Jo" ++ [0xE3] ++ str "o 5kg";
                ProductInfo.supermarket := str "X" |} ] |} ].
Proof. vm_compute. reflexivity. Qed.

(** ** Searching and replacing *)

Lemma startsWith_app pat s : startsWith pat (pat ++ s) = true.
Proof. induction pat as [|a pat IH]; simpl; [reflexivity|]. now rewrite N.eqb_refl. Qed.

Lemma startsWith_inv pat s : startsWith pat s = true -> exists rest, s = pat ++ rest.
Proof.
  revert s; induction pat as [|a pat IH]; intros s H; simpl in *.
  - now exists s.
  - destruct s as [|b s]; [discriminate|].
    apply andb_true_iff in H as [Hab H]. apply N.eqb_eq in Hab. subst b.
    destruct (IH _ H) as [rest ->]. now exists rest.
Qed.

Lemma replaceFrom_skip pat rep k s :
  replaceFrom pat rep k s = replaceFrom pat rep 0 (skipn k s).
Proof.
  revert k; induction s as [|c s IH]; intros [|k]; try reflexivity.
  simpl replaceFrom at 1. rewrite IH. reflexivity.
Qed.

Lemma replaceAll_nil pat rep : replaceAll pat rep [] = [].
Proof. reflexivity. Qed.

Lemma replaceAll_match pat rep rest :
  pat <> [] -> replaceAll pat rep (pat ++ rest) = rep ++ replaceAll pat rep rest.
Proof.
  intro Hne. destruct pat as [|a pat]; [contradiction|].
  unfold replaceAll. simpl app. simpl replaceFrom.
  rewrite N.eqb_refl, startsWith_app. simpl.
  rewrite replaceFrom_skip, skipn_app, skipn_all, Nat.sub_diag. reflexivity.
Qed.

Lemma replaceAll_nomatch pat rep c s :
  startsWith pat (c :: s) = false ->
  replaceAll pat rep (c :: s) = c :: replaceAll pat rep s.
Proof. intro H. unfold replaceAll. simpl replaceFrom. now rewrite H. Qed.

(** A case analysis that follows [replaceAll]: at a match, or one code
    unit further. *)
Lemma replaceAll_cases pat rep s :
  pat <> [] ->
  s = []
  \/ (exists rest, s = pat ++ rest
        /\ replaceAll pat rep s = rep ++ replaceAll pat rep rest)
  \/ (exists c s', s = c :: s' /\ startsWith pat s = false
        /\ replaceAll pat rep s = c :: replaceAll pat rep s').
Proof.
  intro Hne. destruct s as [|c s']; [now left|right].
  destruct (startsWith pat (c :: s')) eqn:E.
  - left. destruct (startsWith_inv _ _ E) as [rest Hs]. exists rest.
    split; [exact Hs|]. rewrite Hs. now apply replaceAll_match.
  - right. exists c, s'. split; [reflexivity|]. split; [reflexivity|].
    now apply replaceAll_nomatch.
Qed.

(** ** Collapsing white space *)

Lemma collapseSpaces_space c s :
  isSpace c = true -> exists rest, collapseSpaces (c :: s) = 32 :: rest.
Proof.
  revert c; induction s as [|d s IH]; intros c Hc; simpl; rewrite Hc.
  - now exists [].
  - destruct (isSpace d) eqn:Hd.
    + destruct (IH d Hd) as [rest Hrest]. simpl in Hrest. rewrite Hd in Hrest.
      now exists rest.
    + eexists. reflexivity.
Qed.

Lemma collapseSpaces_cons_nospace c s :
  isSpace c = false -> collapseSpaces (c :: s) = c :: collapseSpaces s.
Proof. intro H. simpl. now rewrite H. Qed.

Lemma collapseSpaces_nospace_app x s :
  noSpace x = true -> collapseSpaces (x ++ s) = x ++ collapseSpaces s.
Proof.
  induction x as [|c x IH]; intro H; [reflexivity|].
  simpl in H. apply andb_true_iff in H as [Hc Hx]. apply negb_true_iff in Hc.
  simpl app. rewrite collapseSpaces_cons_nospace by exact Hc. now rewrite IH.
Qed.

Lemma startsWith_collapseSpaces pat s :
  noSpace pat = true -> startsWith pat (collapseSpaces s) = startsWith pat s.
Proof.
  revert s; induction pat as [|a pat IH]; intros s H; [reflexivity|].
  simpl in H. apply andb_true_iff in H as [Ha Hpat]. apply negb_true_iff in Ha.
  destruct s as [|c s]; [reflexivity|].
  destruct (isSpace c) eqn:Hc.
  - destruct (collapseSpaces_space c s Hc) as [rest ->]. simpl.
    assert ((a =? 32) = false) as -> by (apply N.eqb_neq; intros ->; discriminate).
    assert ((a =? c) = false) as -> by (apply N.eqb_neq; intros ->; congruence).
    reflexivity.
  - rewrite collapseSpaces_cons_nospace by exact Hc. simpl. now rewrite IH.
Qed.

Section ReplaceCollapse.

Variables pat rep : jsstring.
Hypothesis pat_nonempty : pat <> [].
Hypothesis pat_nospace : noSpace pat = true.
Hypothesis rep_nonempty : rep <> [].
Hypothesis rep_nospace : noSpace rep = true.

Lemma startsWith_at_space c s : isSpace c = true -> startsWith pat (c :: s) = false.
Proof.
  intro Hc. destruct pat as [|a p]; [contradiction|].
  simpl in pat_nospace. apply andb_true_iff in pat_nospace as [Ha _].
  apply negb_true_iff in Ha. simpl.
  assert ((a =? c) = false) as -> by (apply N.eqb_neq; intros ->; congruence).
  reflexivity.
Qed.

Lemma replaceAll_head_nospace d s :
  isSpace d = false ->
  exists x rest, replaceAll pat rep (d :: s) = x :: rest /\ isSpace x = false.
Proof.
  intro Hd. destruct (replaceAll_cases pat rep (d :: s) pat_nonempty)
    as [E | [[rest [_ E]] | [c [s' [Hs [_ E]]]]]]; [discriminate| |].
  - rewrite E. destruct rep as [|x r]; [contradiction|].
    simpl in rep_nospace. apply andb_true_iff in rep_nospace as [Hx _].
    apply negb_true_iff in Hx. exists x, (r ++ replaceAll pat (x :: r) rest).
    now split.
  - injection Hs as <- <-. rewrite E. now exists d, (replaceAll pat rep s).
Qed.

Lemma collapseSpaces_replaceAll_bounded n s :
  (List.length s <= n)%nat ->
  collapseSpaces (replaceAll pat rep s) = replaceAll pat rep (collapseSpaces s).
Proof.
  revert s; induction n as [|n IH]; intros s Hlen.
  - destruct s; [reflexivity | simpl in Hlen; lia].
  - destruct s as [|c s]; [reflexivity|]. simpl in Hlen.
    destruct (isSpace c) eqn:Hc.
    + rewrite replaceAll_nomatch by now apply startsWith_at_space.
      destruct s as [|d s].
      * rewrite replaceAll_nil. simpl. rewrite Hc.
        now rewrite replaceAll_nomatch by (apply startsWith_at_space; reflexivity).
      * destruct (isSpace d) eqn:Hd.
        -- assert (collapseSpaces (c :: d :: s) = collapseSpaces (d :: s)) as ->
             by (simpl; now rewrite Hc, Hd).
           rewrite <- IH by lia.
           rewrite (replaceAll_nomatch pat rep d) by now apply startsWith_at_space.
           simpl. now rewrite Hc, Hd.
        -- assert (collapseSpaces (c :: d :: s) = 32 :: collapseSpaces (d :: s)) as ->
             by (simpl; now rewrite Hc, Hd).
           rewrite (replaceAll_nomatch pat rep 32)
             by (apply startsWith_at_space; reflexivity).
           rewrite <- IH by lia.
           destruct (replaceAll_head_nospace d s Hd) as [x [rest [-> Hx]]].
           simpl. now rewrite Hc, Hx.
    + rewrite (collapseSpaces_cons_nospace c s Hc).
      destruct (startsWith pat (c :: s)) eqn:E.
      * destruct (startsWith_inv _ _ E) as [rest Hs].
        assert (List.length rest <= n)%nat as Hrest.
        { apply (f_equal (@List.length N)) in Hs. rewrite length_app in Hs.
          simpl in Hs. destruct pat; [contradiction|]. simpl in Hs. lia. }
        rewrite <- (collapseSpaces_cons_nospace c s Hc), Hs.
        rewrite replaceAll_match by exact pat_nonempty.
        rewrite !collapseSpaces_nospace_app by assumption.
        rewrite replaceAll_match by exact pat_nonempty.
        now rewrite IH.
      * rewrite replaceAll_nomatch by exact E.
        rewrite collapseSpaces_cons_nospace by exact Hc.
        rewrite IH by lia. rewrite replaceAll_nomatch; [reflexivity|].
        rewrite <- (collapseSpaces_cons_nospace c s Hc).
        now rewrite startsWith_collapseSpaces.
Qed.

(** Abbreviating a word without white space and collapsing the white
    space can be done in either order. *)
Lemma collapseSpaces_replaceAll s :
  collapseSpaces (replaceAll pat rep s) = replaceAll pat rep (collapseSpaces s).
Proof. now apply (collapseSpaces_replaceAll_bounded (List.length s)). Qed.

End ReplaceCollapse.

(** ** The runtime restricted to the tables *)

Lemma units_below (P : N -> bool) (n : nat) :
  forallb P (map N.of_nat (seq 0 n)) = true ->
  forall c, c < N.of_nat n -> P c = true.
Proof.
  intros H c Hc. rewrite forallb_forall in H. apply H.
  apply in_map_iff. exists (N.to_nat c). split; [apply N2Nat.id|].
  apply in_seq. lia.
Qed.

Ltac compare_units :=
  repeat match goal with
    | |- context [N.eqb ?a ?b] => destruct (N.eqb_spec a b); [try lia|]
    | |- context [N.leb ?a ?b] => destruct (N.leb_spec a b); try lia
    end.

Lemma decompUnit_beyond c : 255 < c -> decompUnit c = [c].
Proof.
  intro H. unfold decompUnit, decompLower. compare_units; reflexivity.
Qed.

Lemma lowerUnit_beyond c : 255 < c -> lowerUnit c = c.
Proof. intro H. unfold lowerUnit. compare_units; reflexivity. Qed.

Lemma decompUnit_decomposed d c : In c (decompUnit d) -> decompUnit c = [c].
Proof.
  destruct (N.le_gt_cases d 255) as [Hd|Hd].
  - assert (forall d, d < N.of_nat 256 ->
              forallb (fun c => str_eqb (decompUnit c) [c]) (decompUnit d) = true) as H.
    { apply units_below. vm_compute. reflexivity. }
    specialize (H d ltac:(lia)). rewrite forallb_forall in H.
    intro Hc. now apply str_eqb_eq, H.
  - rewrite decompUnit_beyond by exact Hd. intros [<-|[]].
    now apply decompUnit_beyond.
Qed.

Lemma decompUnit_inTables d : inTables d = true -> forallb inTables (decompUnit d) = true.
Proof.
  intro H. destruct (N.le_gt_cases d 255) as [Hd|Hd].
  - assert (forall d, d < N.of_nat 256 -> forallb inTables (decompUnit d) = true) as Hall
      by (apply units_below; vm_compute; reflexivity).
    apply Hall. lia.
  - rewrite decompUnit_beyond by exact Hd. simpl. now rewrite H.
Qed.

Lemma flat_map_decompUnit_inTables s :
  forallb inTables s = true -> forallb inTables (flat_map decompUnit s) = true.
Proof.
  induction s as [|c s IH]; [reflexivity|]. simpl.
  intro H. apply andb_true_iff in H as [Hc Hs].
  now rewrite forallb_app, decompUnit_inTables, IH.
Qed.

Instance latin1_laws : RuntimeLaws latin1_runtime.
Proof.
  split.
  - reflexivity.
  - reflexivity.
  - apply flat_map_decompUnit_inTables.
  - intros s c H. simpl in H. apply in_flat_map in H as [d [_ Hd]].
    now apply decompUnit_decomposed with d.
Qed.

(** In the tables the only combining marks are those that [stripMarks]
    deletes. *)
Lemma stripCombiningMarks_tables s :
  forallb inTables s = true -> stripCombiningMarks s = stripMarks s.
Proof.
  intro H. unfold stripCombiningMarks, stripMarks. apply filter_ext_in.
  intros c Hc. rewrite forallb_forall in H. specialize (H c Hc).
  unfold isCombiningMark. unfold inTables, isMark in *.
  destruct ((768 <=? c) && (c <=? 879)) eqn:E; [reflexivity|].
  rewrite orb_false_r in H. apply N.leb_le in H. simpl.
  compare_units; reflexivity.
Qed.

Lemma inTables_lowerUnit c : inTables c = true -> inTables (lowerUnit c) = true.
Proof.
  destruct (N.le_gt_cases c 255) as [Hc|Hc].
  - intros _. revert c Hc.
    assert (forall c, c < N.of_nat 256 -> inTables (lowerUnit c) = true) as H
      by (apply units_below; vm_compute; reflexivity).
    intros c Hc. apply H. lia.
  - now rewrite lowerUnit_beyond.
Qed.

Lemma forallb_map_inTables s :
  forallb inTables s = true -> forallb inTables (map lowerUnit s) = true.
Proof.
  rewrite !forallb_forall. intros H c Hc. apply in_map_iff in Hc as [d [<- Hd]].
  apply inTables_lowerUnit, H, Hd.
Qed.

Section RuntimeProofs.

Context {R : StringRuntime} {L : RuntimeLaws R}.

(** On a title of the tables every lawful runtime normalizes as the
    tables do. *)
Lemma normalizeTitle_tables title :
  forallb inTables title = true ->
  normalizeTitle title = normalizeTitle (R := latin1_runtime) title.
Proof.
  intro H. unfold normalizeTitle.
  rewrite (toLowerCase_tables title H).
  rewrite (normalizeNFD_tables _ (forallb_map_inTables _ H)). reflexivity.
Qed.

Lemma normalizeTitle_empty : normalizeTitle [] = [].
Proof. now rewrite normalizeTitle_tables. Qed.

Lemma normalizeTitle_normalizeInOrder title :
  normalizeTitle title = normalizeInOrder stripMarks title.
Proof.
  unfold normalizeTitle, normalizeInOrder. cbv zeta.
  rewrite !collapseSpaces_replaceAll by (reflexivity || discriminate).
  reflexivity.
Qed.

Lemma normalizeTitle_normalizeSpec title :
  forallb inTables title = true -> normalizeTitle title = normalizeSpec title.
Proof.
  intro H. rewrite normalizeTitle_normalizeInOrder.
  unfold normalizeSpec, normalizeInOrder. cbv zeta.
  rewrite stripCombiningMarks_tables; [reflexivity|].
  apply normalizeNFD_inTables. rewrite (toLowerCase_tables title H).
  now apply forallb_map_inTables.
Qed.

End RuntimeProofs.

(** C8, as the code has it: [normalizeTitle] returns what the steps of
    the specification return when they are applied in the order in which
    it lists them (lower case; decomposition and deletion of the marks;
    hyphens to spaces; "litro" to "l" and "quilo" to "kg"; white space runs
    to one space; trimming), where the marks that are deleted are those of
    the block U+0300 to U+036F; on a title of Basic Latin, Latin-1
    Supplement and these marks they are all the combining marks; it is a
    function defined on every string, and it maps the empty string to the
    empty string. *)
Theorem normalizeTitle_steps (R : StringRuntime) (L : RuntimeLaws R) :
  (forall title, normalizeTitle title = normalizeInOrder stripMarks title)
  /\ (forall title,
        forallb inTables title = true -> normalizeTitle title = normalizeSpec title)
  /\ normalizeTitle [] = [].
Proof.
  split; [apply normalizeTitle_normalizeInOrder|].
  split; [apply normalizeTitle_normalizeSpec | apply normalizeTitle_empty].
Qed.

Lemma normalizeTitle_steps_witness :
  normalizeTitle (R := latin1_runtime) (str "Arroz  Tio-Jo" ++ [0xE3] ++ str "o 5 Quilo")
  = normalizeSpec (R := latin1_runtime) (str "Arroz  Tio-Jo" ++ [0xE3] ++ str "o 5 Quilo").
Proof.
  apply (proj1 (proj2 (normalizeTitle_steps latin1_runtime latin1_laws))).
  reflexivity.
Defined.

(** A combining mark outside the block U+0300 to U+036F, here the dotted
    grave accent U+1DC0 after "e", has no case and no decomposition; it is
    kept by [normalizeTitle] and deleted by the normalizer of the
    specification. *)
Example normalizeTitle_dotted_grave :
  normalizeTitle (R := latin1_runtime) [101; 0x1DC0] = [101; 0x1DC0]
  /\ normalizeSpec (R := latin1_runtime) [101; 0x1DC0] = [101].
Proof. split; vm_compute; reflexivity. Qed.

(** C8 as stated fails: on "e" with the dotted grave accent U+1DC0 the
    result is not that of the steps that delete all combining marks. *)
Lemma normalizeTitle_keeps_other_marks :
  normalizeTitle (R := latin1_runtime) [101; 0x1DC0]
  <> normalizeSpec (R := latin1_runtime) [101; 0x1DC0].
Proof. vm_compute. discriminate. Qed.

(** ** The code units of a normalized title *)

Lemma includes_inv pat s :
  includes pat s = true -> exists a b, s = a ++ pat ++ b.
Proof.
  induction s as [|c s IH]; simpl; intro H.
  - destruct (startsWith_inv _ _ H) as [rest E]. now exists [], rest.
  - apply orb_true_iff in H as [H|H].
    + destruct (startsWith_inv _ _ H) as [rest E]. now exists [], rest.
    + destruct (IH H) as [a [b ->]]. now exists (c :: a), b.
Qed.

Lemma includes_startsWith pat s : startsWith pat s = true -> includes pat s = true.
Proof. intro H. destruct s; simpl; rewrite H; reflexivity. Qed.

Lemma includes_app pat a b : includes pat (a ++ pat ++ b) = true.
Proof.
  induction a as [|c a IH]; simpl.
  - apply includes_startsWith, startsWith_app.
  - rewrite IH. apply orb_true_r.
Qed.

Lemma includes_In pat s c : includes pat s = true -> In c pat -> In c s.
Proof.
  intros H Hc. destruct (includes_inv _ _ H) as [a [b ->]].
  apply in_or_app. right. apply in_or_app. now left.
Qed.

Section UnitsOfTheResult.

Variable P : N -> Prop.

Lemma Forall_replaceFrom pat rep k s :
  Forall P rep -> Forall P s -> Forall P (replaceFrom pat rep k s).
Proof.
  intros Hrep. revert k. induction s as [|c s IH]; intros k Hs; [constructor|].
  inversion Hs as [|c' s' Hc Hs']; subst.
  destruct k as [|k]; [|simpl; now apply IH].
  destruct (startsWith pat (c :: s)) eqn:E; simpl replaceFrom; rewrite E.
  - apply Forall_app. split; [exact Hrep | now apply IH].
  - constructor; [exact Hc | now apply IH].
Qed.

Lemma Forall_replaceAll pat rep s :
  Forall P rep -> Forall P s -> Forall P (replaceAll pat rep s).
Proof. apply Forall_replaceFrom. Qed.

Lemma Forall_collapseSpaces s : P 32 -> Forall P s -> Forall P (collapseSpaces s).
Proof.
  intros HP. induction 1 as [|c s Hc Hs IH]; simpl; [constructor|].
  destruct (isSpace c).
  - destruct s as [|d s]; [now repeat constructor|].
    destruct (isSpace d); [exact IH | now constructor].
  - now constructor.
Qed.

Lemma Forall_replaceHyphens s : P 32 -> Forall P s -> Forall P (replaceHyphens s).
Proof.
  intros HP. induction 1 as [|c s Hc Hs IH]; simpl; constructor; [|exact IH].
  now destruct (c =? 45).
Qed.

Lemma Forall_dropWhile f s : Forall P s -> Forall P (dropWhile f s).
Proof.
  induction 1 as [|c s Hc Hs IH]; simpl; [constructor|].
  destruct (f c); [exact IH | now constructor].
Qed.

Lemma Forall_trim s : Forall P s -> Forall P (trim s).
Proof.
  intro H. unfold trim. apply Forall_rev, Forall_dropWhile, Forall_rev.
  now apply Forall_dropWhile.
Qed.

Lemma Forall_normalizeTitle_unhyphenated {R : StringRuntime} title :
  P 32 -> P 108 -> P 107 -> P 103 ->
  Forall P (replaceHyphens (stripMarks (normalizeNFD (toLowerCase title)))) ->
  Forall P (normalizeTitle title).
Proof.
  intros Hsp Hl Hk Hg H. unfold normalizeTitle.
  apply Forall_trim, Forall_replaceAll; [now repeat constructor|].
  apply Forall_replaceAll; [now repeat constructor|].
  now apply Forall_collapseSpaces.
Qed.

Lemma Forall_normalizeTitle {R : StringRuntime} title :
  P 32 -> P 108 -> P 107 -> P 103 ->
  Forall P (stripMarks (normalizeNFD (toLowerCase title))) ->
  Forall P (normalizeTitle title).
Proof.
  intros Hsp Hl Hk Hg H.
  now apply Forall_normalizeTitle_unhyphenated, Forall_replaceHyphens.
Qed.

End UnitsOfTheResult.

Section KeyProofs.

Context {R : StringRuntime}.

Lemma extractFeatures_classify t :
  extractFeatures t
  = {| productType := fst (fst (classify t));
       brand := snd (fst (classify t));
       variant := snd (classify t);
       size := sizeToken t |}.
Proof. unfold extractFeatures. now destruct (classify t) as [[ty br] va]. Qed.

Lemma classify_byRules t : classify t = classifyByRules categoryRules t.
Proof.
  unfold classify, classifyByRules, firstRule, categoryRules, firstToken, anyIncluded.
  simpl.
  repeat match goal with
    | |- context [includes ?m t] => destruct (includes m t); simpl
    end; reflexivity.
Qed.


End KeyProofs.

(** C6: the type is decided by a priority chain over the rules "leite",
    "arroz", "feijao" in this order: the first rule one of whose markers is
    in the title gives the type, and with it the vocabulary of the brand
    and of the variant; a title with "leite" has the type "leite" also when
    it has "arroz"; without any marker the type is the empty token. *)
Theorem productType_priority_chain (R : StringRuntime) :
  (forall t, classify t = classifyByRules categoryRules t)
  /\ (forall t,
        productType (extractFeatures t)
        = if includes (str "leite") t then str "leite"
          else if includes (str "arroz") t then str "arroz"
          else if includes (str "feijao") t || includes feijaoTilde t then str "feijao"
          else [])
  /\ (forall t,
        includes (str "leite") t = true -> includes (str "arroz") t = true ->
        productType (extractFeatures t) = str "leite")
  /\ (forall t,
        firstRule categoryRules t = None -> productType (extractFeatures t) = []).
Proof.
  split; [exact classify_byRules|]. split; [|split].
  - intro t. rewrite extractFeatures_classify. unfold classify. simpl.
    destruct (includes (str "leite") t); [reflexivity|].
    destruct (includes (str "arroz") t); [reflexivity|].
    now destruct (includes (str "feijao") t || includes feijaoTilde t).
  - intros t Hl _. rewrite extractFeatures_classify. unfold classify.
    now rewrite Hl.
  - intros t H. rewrite extractFeatures_classify, classify_byRules.
    unfold classifyByRules. now rewrite H.
Qed.

Lemma productType_priority_chain_witness :
  productType (extractFeatures (R := latin1_runtime) (str "arroz doce com leite"))
  = str "leite".
Proof.
  apply (proj1 (proj2 (proj2 (productType_priority_chain latin1_runtime))));
    vm_compute; reflexivity.
Defined.

(** ** Accents in a normalized title *)

Section AccentProofs.

Context {R : StringRuntime} {L : RuntimeLaws R}.



End AccentProofs.



(** ** The size pattern *)

Lemma takeWhile_dropWhile f s : takeWhile f s ++ dropWhile f s = s.
Proof.
  induction s as [|c s IH]; simpl; [reflexivity|].
  destruct (f c); simpl; [now rewrite IH | reflexivity].
Qed.

Lemma takeWhile_all f s : forallb f (takeWhile f s) = true.
Proof.
  induction s as [|c s IH]; simpl; [reflexivity|].
  destruct (f c) eqn:E; simpl; [now rewrite E | reflexivity].
Qed.

Lemma dropWhile_head f s c rest : dropWhile f s = c :: rest -> f c = false.
Proof.
  induction s as [|d s IH]; simpl; [discriminate|].
  destruct (f d) eqn:E; [exact IH|]. intro H. injection H as <- _. exact E.
Qed.

Lemma takeWhile_app f a b :
  forallb f a = true -> takeWhile f b = [] -> takeWhile f (a ++ b) = a.
Proof.
  intros Ha Hb. induction a as [|c a IH]; simpl in *; [exact Hb|].
  apply andb_true_iff in Ha as [-> Ha]. now rewrite IH.
Qed.

Lemma dropWhile_app f a b :
  forallb f a = true -> takeWhile f b = [] -> dropWhile f (a ++ b) = b.
Proof.
  intros Ha Hb. induction a as [|c a IH]; simpl in *.
  - rewrite <- (takeWhile_dropWhile f b) at 2. now rewrite Hb.
  - apply andb_true_iff in Ha as [-> Ha]. now apply IH.
Qed.

Lemma isSpace_not_digit c : isSpace c = true -> isDigit c = false.
Proof. unfold isSpace, isDigit. intro H. to_prop. lia. Qed.

Lemma isUnit_not_digit c : isUnit c = true -> isDigit c = false.
Proof. unfold isUnit, isDigit. intro H. to_prop. lia. Qed.

Lemma isUnit_not_space c : isUnit c = true -> isSpace c = false.
Proof. unfold isUnit, isSpace. intro H. to_prop. lia. Qed.

Lemma isUnit_inTables c : isUnit c = true -> inTables c = true.
Proof. unfold isUnit, inTables. intro H. to_prop. lia. Qed.

Lemma takeWhile_digit_spaces spaces unit post :
  forallb isSpace spaces = true -> isUnit unit = true ->
  takeWhile isDigit (spaces ++ unit :: post) = [].
Proof.
  intros Hs Hu. destruct spaces as [|c spaces]; simpl.
  - now rewrite isUnit_not_digit.
  - simpl in Hs. apply andb_true_iff in Hs as [Hc _].
    now rewrite isSpace_not_digit.
Qed.

Lemma sizeRegexAt_occurrence digits spaces unit post :
  digits <> [] -> forallb isDigit digits = true ->
  forallb isSpace spaces = true -> isUnit unit = true ->
  sizeRegexAt (digits ++ spaces ++ unit :: post) = Some (digits, unit).
Proof.
  intros Hne Hd Hs Hu. unfold sizeRegexAt.
  rewrite takeWhile_app, dropWhile_app;
    try assumption; try now apply takeWhile_digit_spaces.
  rewrite dropWhile_app; [|assumption|simpl; now rewrite isUnit_not_space].
  rewrite Hu. destruct digits; [contradiction|reflexivity].
Qed.

Lemma sizeRegexAt_inv s digits unit :
  sizeRegexAt s = Some (digits, unit) ->
  exists spaces post, SizeOccurrence s [] digits spaces unit post.
Proof.
  unfold sizeRegexAt. intro H.
  destruct (takeWhile isDigit s) as [|d ds] eqn:Ed; [discriminate|].
  destruct (dropWhile isSpace (dropWhile isDigit s)) as [|u post] eqn:Es;
    [discriminate|].
  destruct (isUnit u) eqn:Eu; [|discriminate].
  injection H as <- <-.
  exists (takeWhile isSpace (dropWhile isDigit s)), post.
  repeat split.
  - rewrite app_nil_l, <- Es, takeWhile_dropWhile, <- Ed.
    now rewrite takeWhile_dropWhile.
  - discriminate.
  - rewrite <- Ed. apply takeWhile_all.
  - apply takeWhile_all.
  - exact Eu.
Qed.

Lemma SizeOccurrence_cons c t pre digits spaces unit post :
  SizeOccurrence t pre digits spaces unit post ->
  SizeOccurrence (c :: t) (c :: pre) digits spaces unit post.
Proof. intros [-> H]. now split. Qed.

Lemma SizeOccurrence_tail c t pre digits spaces unit post :
  SizeOccurrence (c :: t) (c :: pre) digits spaces unit post ->
  SizeOccurrence t pre digits spaces unit post.
Proof. intros [E H]. simpl in E. injection E as ->. now split. Qed.

Lemma SizeOccurrence_head c d t pre digits spaces unit post :
  SizeOccurrence (c :: t) (d :: pre) digits spaces unit post -> c = d.
Proof. intros [E _]. simpl in E. now injection E. Qed.

Lemma SizeOccurrence_start t digits spaces unit post :
  SizeOccurrence t [] digits spaces unit post ->
  sizeRegexAt t = Some (digits, unit).
Proof.
  intros [-> [Hne [Hd [Hs Hu]]]]. now apply sizeRegexAt_occurrence.
Qed.

(** The match is the first occurrence. *)
Lemma sizeRegexMatch_first t pre digits spaces unit post :
  FirstSizeOccurrence t pre digits spaces unit post ->
  sizeRegexMatch t = Some (digits, unit).
Proof.
  revert t. induction pre as [|c pre IH]; intros t [Hocc Hmin].
  - pose proof (SizeOccurrence_start _ _ _ _ _ Hocc) as Hat.
    destruct t as [|c t]; simpl.
    + destruct Hocc as [E [Hne _]]. simpl in E. symmetry in E.
      apply app_eq_nil in E as [-> _]. contradiction.
    + now rewrite Hat.
  - destruct t as [|c' t]; [destruct Hocc as [E _]; discriminate|].
    pose proof (SizeOccurrence_head _ _ _ _ _ _ _ _ Hocc) as ->.
    simpl. destruct (sizeRegexAt (c :: t)) as [[ds u]|] eqn:Hat.
    + destruct (sizeRegexAt_inv _ _ _ Hat) as [ws [post' Hocc']].
      specialize (Hmin _ _ _ _ _ Hocc'). simpl in Hmin. lia.
    + apply IH. split; [now apply SizeOccurrence_tail with c|].
      intros pre' ds' ws' u' post' Hocc'.
      specialize (Hmin _ _ _ _ _ (SizeOccurrence_cons c _ _ _ _ _ _ Hocc')).
      simpl in Hmin. lia.
Qed.

Lemma sizeRegexMatch_inv t digits unit :
  sizeRegexMatch t = Some (digits, unit) ->
  exists pre spaces post, FirstSizeOccurrence t pre digits spaces unit post.
Proof.
  induction t as [|c t IH]; simpl; [discriminate|].
  destruct (sizeRegexAt (c :: t)) as [[ds u]|] eqn:Hat; intro H.
  - injection H as -> ->.
    destruct (sizeRegexAt_inv _ _ _ Hat) as [ws [post Hocc]].
    exists [], ws, post. split; [exact Hocc|]. intros. simpl. lia.
  - destruct (IH H) as [pre [ws [post [Hocc Hmin]]]].
    exists (c :: pre), ws, post. split; [now apply SizeOccurrence_cons|].
    intros pre' ds' ws' u' post' Hocc'. destruct pre' as [|c' pre'].
    + rewrite (SizeOccurrence_start _ _ _ _ _ Hocc') in Hat. discriminate.
    + pose proof (SizeOccurrence_head _ _ _ _ _ _ _ _ Hocc') as <-.
      apply SizeOccurrence_tail in Hocc'. specialize (Hmin _ _ _ _ _ Hocc').
      simpl. lia.
Qed.

Lemma sizeRegexMatch_none t : NoSizeOccurrence t -> sizeRegexMatch t = None.
Proof.
  intro H. destruct (sizeRegexMatch t) as [[ds u]|] eqn:E; [|reflexivity].
  destruct (sizeRegexMatch_inv _ _ _ E) as [pre [ws [post [Hocc _]]]].
  now apply H in Hocc.
Qed.

Lemma sizeRegexMatch_unit t digits unit :
  sizeRegexMatch t = Some (digits, unit) -> isUnit unit = true.
Proof.
  intro H. destruct (sizeRegexMatch_inv _ _ _ H) as [pre [ws [post [Hocc _]]]].
  apply Hocc.
Qed.

Section SizeProofs.

Context {R : StringRuntime} {L : RuntimeLaws R}.

Lemma toLowerCase_unit unit :
  isUnit unit = true -> toLowerCase [unit] = [lowerUnit unit].
Proof.
  intro H. rewrite toLowerCase_tables; [reflexivity|].
  simpl. now rewrite isUnit_inTables.
Qed.

Lemma sizeToken_first t pre digits spaces unit post :
  FirstSizeOccurrence t pre digits spaces unit post ->
  sizeToken t = digits ++ [lowerUnit unit].
Proof.
  intro H. unfold sizeToken. rewrite (sizeRegexMatch_first _ _ _ _ _ _ H).
  rewrite toLowerCase_unit; [reflexivity | apply H].
Qed.

Lemma sizeToken_none t : NoSizeOccurrence t -> sizeToken t = [].
Proof. intro H. unfold sizeToken. now rewrite sizeRegexMatch_none. Qed.

(** The size token does not depend on the runtime. *)
Lemma sizeToken_tables t : sizeToken t = sizeToken (R := latin1_runtime) t.
Proof.
  unfold sizeToken. destruct (sizeRegexMatch t) as [[ds u]|] eqn:E; [|reflexivity].
  rewrite toLowerCase_unit by now apply sizeRegexMatch_unit with t ds.
  reflexivity.
Qed.

Lemma generateProductKey_tables t :
  generateProductKey t = generateProductKey (R := latin1_runtime) t.
Proof.
  unfold generateProductKey. rewrite !extractFeatures_classify.
  now rewrite sizeToken_tables.
Qed.

End SizeProofs.

Lemma lowerUnit_unit unit : isUnit unit = true -> In (lowerUnit unit) (str "kgl").
Proof.
  unfold isUnit. intro H. to_prop.
  repeat (destruct H as [H|H]); subst unit; simpl; tauto.
Qed.

(** C9: the size is looked for whatever the type: the first occurrence of
    digits, optional white space and one of the letters k, g, l in either
    case gives the digits followed by the lower case letter, later
    occurrences are not used, and without an occurrence the size is the
    empty token. *)
Theorem sizeToken_first_occurrence (R : StringRuntime) (L : RuntimeLaws R) :
  (forall t, size (extractFeatures t) = sizeToken t)
  /\ (forall t pre digits spaces unit post,
        FirstSizeOccurrence t pre digits spaces unit post ->
        sizeToken t = digits ++ [lowerUnit unit]
        /\ In (lowerUnit unit) (str "kgl"))
  /\ (forall t, NoSizeOccurrence t -> sizeToken t = []).
Proof.
  split; [|split].
  - intro t. now rewrite extractFeatures_classify.
  - intros t pre digits spaces unit post H. split.
    + now apply sizeToken_first with pre spaces post.
    + apply lowerUnit_unit, H.
  - apply @sizeToken_none.
Qed.

(** An occurrence with no digit before it is the first one. *)
Lemma FirstSizeOccurrence_no_digit t pre digits spaces unit post :
  SizeOccurrence t pre digits spaces unit post ->
  forallb (fun c => negb (isDigit c)) pre = true ->
  FirstSizeOccurrence t pre digits spaces unit post.
Proof.
  intros Hocc Hpre. split; [exact Hocc|].
  intros pre' ds' ws' u' post' [E' [Hne' [Hd' _]]].
  destruct (Nat.le_gt_cases (List.length pre) (List.length pre')) as [|Hlt];
    [assumption|exfalso].
  destruct ds' as [|d ds']; [contradiction|].
  simpl in Hd'. apply andb_true_iff in Hd' as [Hd _].
  assert (nth_error t (List.length pre') = Some d) as Hnth.
  { rewrite E'. rewrite nth_error_app2 by lia. now rewrite Nat.sub_diag. }
  destruct Hocc as [E _]. rewrite E, nth_error_app1 in Hnth by exact Hlt.
  apply nth_error_In in Hnth. rewrite forallb_forall in Hpre.
  apply Hpre in Hnth. rewrite Hd in Hnth. discriminate.
Qed.

Lemma sizeToken_first_occurrence_witness :
  sizeToken (R := latin1_runtime) (str "cafe 900 G ou 1l") = str "900g".
Proof.
  apply (proj1 (proj2 (sizeToken_first_occurrence latin1_runtime latin1_laws))
           (str "cafe 900 G ou 1l") (str "cafe ") (str "900") (str " ") 71
           (str " ou 1l")).
  apply FirstSizeOccurrence_no_digit; [|reflexivity].
  repeat split; discriminate.
Defined.

Section UnitProofs.

Context {R : StringRuntime} {L : RuntimeLaws R}.

Lemma size_normalizeTitle_tables title :
  forallb inTables title = true ->
  size (extractFeatures (normalizeTitle title))
  = size (extractFeatures (R := latin1_runtime)
            (normalizeTitle (R := latin1_runtime) title)).
Proof.
  intro H. rewrite !extractFeatures_classify. simpl.
  now rewrite sizeToken_tables, normalizeTitle_tables.
Qed.

End UnitProofs.

(** C3, as the code has it: "1 Litro" and "1L" give the size token "1l",
    and so does every normalized title whose first occurrence of the size
    pattern is the digit 1 and the letter l; "1 Quilo" and "1kg" give the
    same size token, which is "1k": the pattern takes one unit letter, the
    k of "kg". *)
Theorem unit_synonyms_size (R : StringRuntime) (L : RuntimeLaws R) :
  (size (extractFeatures (normalizeTitle (str "1 Litro"))) = str "1l"
   /\ size (extractFeatures (normalizeTitle (str "1L"))) = str "1l"
   /\ size (extractFeatures (normalizeTitle (str "1 Quilo"))) = str "1k"
   /\ size (extractFeatures (normalizeTitle (str "1kg"))) = str "1k")
  /\ (forall title pre spaces post,
        FirstSizeOccurrence (normalizeTitle title) pre (str "1") spaces 108 post ->
        size (extractFeatures (normalizeTitle title)) = str "1l")
  /\ (forall title pre spaces post,
        FirstSizeOccurrence (normalizeTitle title) pre (str "1") spaces 107 (103 :: post) ->
        size (extractFeatures (normalizeTitle title)) = str "1k").
Proof.
  split; [|split].
  - repeat split; rewrite size_normalizeTitle_tables by reflexivity;
      vm_compute; reflexivity.
  - intros title pre spaces post H. rewrite extractFeatures_classify. simpl.
    now rewrite (sizeToken_first _ _ _ _ _ _ H).
  - intros title pre spaces post H. rewrite extractFeatures_classify. simpl.
    now rewrite (sizeToken_first _ _ _ _ _ _ H).
Qed.

Lemma unit_synonyms_size_witness :
  size (extractFeatures (R := latin1_runtime)
          (normalizeTitle (R := latin1_runtime) (str "Arroz Tio Joao 1 Quilo")))
  = str "1k".
Proof.
  apply (proj2 (proj2 (unit_synonyms_size latin1_runtime latin1_laws))
           (str "Arroz Tio Joao 1 Quilo") (str "arroz tio joao ") (str " ") []).
  apply FirstSizeOccurrence_no_digit; [|reflexivity].
  repeat split; discriminate.
Defined.

(** C3 as stated fails: the size token of "1 Quilo" is not "1kg". *)
Lemma quilo_size_is_not_1kg :
  size (extractFeatures (R := latin1_runtime)
          (normalizeTitle (R := latin1_runtime) (str "1 Quilo")))
  <> str "1kg".
Proof. vm_compute. discriminate. Qed.

(** ** Titles without a recognized marker *)

Section UnclassifiedProofs.

Context {R : StringRuntime}.


Lemma filter_none {A} (f : A -> bool) l :
  (forall x, In x l -> f x = false) -> filter f l = [].
Proof.
  induction l as [|x l IH]; intro H; simpl; [reflexivity|].
  rewrite (H x) by now left. apply IH. intros y Hy. apply H. now right.
Qed.




End UnclassifiedProofs.





(** ** Letter case and accents *)

Lemma baseOf_mark m : isMark m = true -> baseOf m = [] /\ inTables m = true.
Proof.
  intro H. unfold baseOf, inTables. rewrite H, orb_true_r. split; [|reflexivity].
  assert (255 < m) as Hm by (unfold isMark in H; to_prop; lia).
  rewrite lowerUnit_beyond, decompUnit_beyond by exact Hm.
  simpl. now rewrite H.
Qed.

Lemma baseOf_case c :
  isLowerLetter c = true ->
  baseOf c = baseOf (c - 32) /\ inTables c = true /\ inTables (c - 32) = true.
Proof.
  intro H.
  assert (forall c, c < N.of_nat 256 ->
            implb (isLowerLetter c)
              (str_eqb (baseOf c) (baseOf (c - 32)) && inTables c && inTables (c - 32))
            = true) as Hall
    by (apply units_below; vm_compute; reflexivity).
  assert (c < N.of_nat 256) as Hc by (unfold isLowerLetter in H; to_prop; lia).
  specialize (Hall c Hc). rewrite H in Hall. simpl in Hall.
  apply andb_true_iff in Hall as [Hall H3]. apply andb_true_iff in Hall as [H1 H2].
  apply str_eqb_eq in H1. tauto.
Qed.

Lemma accentedForms_beyond base : 255 < base -> accentedForms base = [].
Proof. intro H. unfold accentedForms. compare_units; reflexivity. Qed.

Lemma baseOf_accent base c :
  In c (accentedForms base) ->
  baseOf base = baseOf c /\ inTables base = true /\ inTables c = true.
Proof.
  intro H. destruct (N.le_gt_cases base 255) as [Hb|Hb].
  - assert (forall b, b < N.of_nat 256 ->
              forallb (fun c => str_eqb (baseOf b) (baseOf c) && inTables b && inTables c)
                (accentedForms b) = true) as Hall
      by (apply units_below; vm_compute; reflexivity).
    specialize (Hall base ltac:(lia)). rewrite forallb_forall in Hall.
    specialize (Hall c H).
    apply andb_true_iff in Hall as [Hall H3]. apply andb_true_iff in Hall as [H1 H2].
    apply str_eqb_eq in H1. tauto.
  - rewrite accentedForms_beyond in H by exact Hb. contradiction.
Qed.

Lemma SameLetter_base c d :
  SameLetter c d -> baseOf c = baseOf d /\ inTables c = true /\ inTables d = true.
Proof.
  induction 1 as [c H | c H | base c H | c d _ IH | c d e _ IH1 _ IH2].
  - tauto.
  - now apply baseOf_case.
  - now apply baseOf_accent.
  - intuition congruence.
  - intuition congruence.
Qed.

Lemma stripMarks_flat_map_cons c s :
  stripMarks (flat_map decompUnit (map lowerUnit (c :: s)))
  = baseOf c ++ stripMarks (flat_map decompUnit (map lowerUnit s)).
Proof. unfold stripMarks, baseOf. simpl. now rewrite filter_app. Qed.

Lemma SameTitle_base a b :
  SameTitle isMark a b ->
  stripMarks (flat_map decompUnit (map lowerUnit a))
  = stripMarks (flat_map decompUnit (map lowerUnit b))
  /\ forallb inTables a = true /\ forallb inTables b = true.
Proof.
  induction 1 as [| c d a b Hcd _ [IH [Ha Hb]] | m a b Hm _ [IH [Ha Hb]]
                   | m a b Hm _ [IH [Ha Hb]]].
  - now repeat split.
  - destruct (SameLetter_base _ _ Hcd) as [E [Hc Hd]].
    rewrite !stripMarks_flat_map_cons, E, IH. simpl. now rewrite Hc, Hd.
  - destruct (baseOf_mark _ Hm) as [E Hin].
    rewrite stripMarks_flat_map_cons, E. simpl. now rewrite Hin.
  - destruct (baseOf_mark _ Hm) as [E Hin].
    rewrite stripMarks_flat_map_cons, E. simpl. now rewrite Hin.
Qed.

Section CaseAccentProofs.

Context {R : StringRuntime} {L : RuntimeLaws R}.

Lemma normalizeTitle_SameTitle a b :
  SameTitle isMark a b -> normalizeTitle a = normalizeTitle b.
Proof.
  intro H. destruct (SameTitle_base _ _ H) as [E [Ha Hb]].
  rewrite (normalizeTitle_tables a Ha), (normalizeTitle_tables b Hb).
  unfold normalizeTitle. simpl. now rewrite E.
Qed.

End CaseAccentProofs.

(** C4, as the code has it: two titles that differ only in the case of
    their letters or in accents that the normalizer removes (a combining
    mark of the block U+0300 to U+036F, alone or in a letter of Latin-1
    Supplement) have the same normalized title, hence the same key: so it
    is for titles that the runtime's lower case and removal of these marks
    make equal, and for titles of the tables that differ letter by letter
    in case or accent only; the titles "Leite Integral Piracanjuba 1L",
    "LEITE INTEGRAL PIRACANJUBA 1l" and "leite integral piracanjuba 1l"
    with an acute accent on the first i of "integral" all have the key
    "leite-piracanjuba-integral-1l". *)
Theorem generateProductKey_case_accent (R : StringRuntime) (L : RuntimeLaws R) :
  (forall a b,
     stripMarks (normalizeNFD (toLowerCase a)) = stripMarks (normalizeNFD (toLowerCase b)) ->
     generateProductKey (normalizeTitle a) = generateProductKey (normalizeTitle b))
  /\ (forall a b,
        SameTitle isMark a b ->
        generateProductKey (normalizeTitle a) = generateProductKey (normalizeTitle b))
  /\ generateProductKey (normalizeTitle (str "Leite Integral Piracanjuba 1L"))
     = str "leite-piracanjuba-integral-1l"
  /\ generateProductKey (normalizeTitle (str "LEITE INTEGRAL PIRACANJUBA 1l"))
     = str "leite-piracanjuba-integral-1l"
  /\ generateProductKey
       (normalizeTitle (str "leite " ++ [0xED] ++ str "ntegral piracanjuba 1l"))
     = str "leite-piracanjuba-integral-1l".
Proof.
  split; [|split].
  - intros a b H. unfold normalizeTitle. now rewrite H.
  - intros a b H. now rewrite (normalizeTitle_SameTitle a b H).
  - repeat split;
      rewrite generateProductKey_tables, normalizeTitle_tables by reflexivity;
      vm_compute; reflexivity.
Qed.

Ltac same_letters :=
  repeat first
    [ apply same_nil
    | apply same_letter;
      [ first
          [ apply same_unit; reflexivity
          | apply same_case; reflexivity
          | apply same_sym, same_case; reflexivity
          | apply same_accent; simpl; tauto
          | apply same_sym, same_accent; simpl; tauto
          | match goal with
            | |- SameLetter ?c _ =>
                apply same_trans with (hd 0 (baseOf c));
                [ apply same_sym, same_accent; simpl; tauto
                | apply same_case; reflexivity ]
            end ]
      | ] ].

Lemma generateProductKey_case_accent_witness :
  generateProductKey (R := latin1_runtime)
    (normalizeTitle (R := latin1_runtime) (str "le" ++ [0xED] ++ str "te 1l"))
  = generateProductKey (R := latin1_runtime)
      (normalizeTitle (R := latin1_runtime) (str "LEITE 1L")).
Proof.
  apply (proj1 (proj2 (generateProductKey_case_accent latin1_runtime latin1_laws))).
  same_letters.
Defined.

(** C4 as stated fails: "leite" and "leite" with the dotted grave accent
    U+1DC0 on its first e differ only in an accent, and their keys are
    "leite---" and "---". *)
Lemma generateProductKey_other_accent :
  SameTitle isCombiningMark (str "leite") (str "le" ++ [0x1DC0] ++ str "ite")
  /\ generateProductKey (R := latin1_runtime)
       (normalizeTitle (R := latin1_runtime) (str "leite"))
     <> generateProductKey (R := latin1_runtime)
          (normalizeTitle (R := latin1_runtime) (str "le" ++ [0x1DC0] ++ str "ite")).
Proof.
  split.
  - do 2 (apply same_letter; [apply same_unit; reflexivity|]).
    apply same_mark_right; [reflexivity|].
    do 3 (apply same_letter; [apply same_unit; reflexivity|]).
    apply same_nil.
  - vm_compute. discriminate.
Qed.

(** ** Normalizing twice *)

Lemma headIsSpace_app a b : a <> [] -> headIsSpace (a ++ b) = headIsSpace a.
Proof. destruct a; [contradiction|reflexivity]. Qed.

Lemma collapseSpaces_collapsed s : collapsed (collapseSpaces s) = true.
Proof.
  induction s as [|c s IH]; [reflexivity|]. simpl collapseSpaces.
  destruct (isSpace c) eqn:Hc.
  - destruct s as [|d s]; [reflexivity|].
    destruct (isSpace d) eqn:Hd; [exact IH|].
    rewrite collapseSpaces_cons_nospace in * by exact Hd.
    change (collapsed (32 :: d :: collapseSpaces s))
      with ((true && negb (isSpace d)) && collapsed (d :: collapseSpaces s)).
    now rewrite Hd, IH.
  - simpl. now rewrite Hc, IH.
Qed.

Lemma collapsed_fixed s : collapsed s = true -> collapseSpaces s = s.
Proof.
  induction s as [|c s IH]; [reflexivity|]. simpl.
  intro H. apply andb_true_iff in H as [Hc Hs]. rewrite (IH Hs).
  destruct (isSpace c); [|reflexivity].
  apply andb_true_iff in Hc as [Hc Hd]. apply N.eqb_eq in Hc. subst c.
  apply negb_true_iff in Hd. destruct s as [|d s]; [reflexivity|].
  simpl in Hd. now rewrite Hd.
Qed.

Lemma collapsed_app_l a b : collapsed (a ++ b) = true -> collapsed a = true.
Proof.
  induction a as [|c a IH]; [reflexivity|]. simpl.
  intro H. apply andb_true_iff in H as [Hc Hs]. rewrite (IH Hs), andb_true_r.
  destruct (isSpace c); [|reflexivity].
  apply andb_true_iff in Hc as [-> Hd]. simpl.
  destruct a as [|d a]; [reflexivity|exact Hd].
Qed.

Lemma collapsed_app_r a b : collapsed (a ++ b) = true -> collapsed b = true.
Proof.
  induction a as [|c a IH]; [trivial|]. simpl.
  intro H. apply andb_true_iff in H as [_ Hs]. now apply IH.
Qed.

Lemma collapsed_replaceAll pat rep s :
  pat <> [] -> noSpace pat = true -> rep <> [] -> noSpace rep = true ->
  collapsed s = true -> collapsed (replaceAll pat rep s) = true.
Proof.
  intros Hp Hpn Hr Hrn Hs.
  rewrite <- (collapsed_fixed s Hs), <- collapseSpaces_replaceAll by assumption.
  apply collapseSpaces_collapsed.
Qed.

Lemma trim_segment s : exists l r, s = l ++ trim s ++ r.
Proof.
  unfold trim.
  exists (takeWhile isSpace s),
         (rev (takeWhile isSpace (rev (dropWhile isSpace s)))).
  rewrite <- rev_app_distr, takeWhile_dropWhile, rev_involutive.
  now rewrite takeWhile_dropWhile.
Qed.

Lemma collapsed_trim s : collapsed s = true -> collapsed (trim s) = true.
Proof.
  intro H. destruct (trim_segment s) as [l [r E]]. rewrite E in H.
  now apply collapsed_app_r, collapsed_app_l in H.
Qed.

Lemma headIsSpace_dropWhile s : headIsSpace (dropWhile isSpace s) = false.
Proof.
  destruct (dropWhile isSpace s) as [|c rest] eqn:E; [reflexivity|].
  simpl. now apply dropWhile_head with s rest.
Qed.

Lemma dropWhile_fixed s : headIsSpace s = false -> dropWhile isSpace s = s.
Proof. destruct s as [|c s]; simpl; [reflexivity|]. now intros ->. Qed.

Lemma trim_fixed s :
  headIsSpace s = false -> headIsSpace (rev s) = false -> trim s = s.
Proof.
  intros H1 H2. unfold trim. rewrite (dropWhile_fixed s H1).
  rewrite (dropWhile_fixed _ H2). apply rev_involutive.
Qed.

Lemma trim_ends s :
  headIsSpace (trim s) = false /\ headIsSpace (rev (trim s)) = false.
Proof.
  unfold trim. rewrite rev_involutive. split; [|apply headIsSpace_dropWhile].
  pose proof (headIsSpace_dropWhile s) as H.
  pose proof (takeWhile_dropWhile isSpace (rev (dropWhile isSpace s))) as E.
  apply (f_equal (@rev N)) in E. rewrite rev_app_distr, rev_involutive in E.
  destruct (rev (dropWhile isSpace (rev (dropWhile isSpace s)))) as [|c rest] eqn:Er;
    [reflexivity|].
  rewrite <- E in H. exact H.
Qed.

Lemma trim_length s : (List.length (trim s) <= List.length s)%nat.
Proof.
  destruct (trim_segment s) as [l [r E]]. rewrite E at 2.
  rewrite !length_app. lia.
Qed.

Lemma replaceAll_absent pat rep s :
  includes pat s = false -> replaceAll pat rep s = s.
Proof.
  induction s as [|c s IH]; [reflexivity|]. simpl includes.
  intro H. apply orb_false_iff in H as [Hc Hs].
  rewrite replaceAll_nomatch by exact Hc. now rewrite IH.
Qed.

Section ReplaceLength.

Variables pat rep : jsstring.
Hypothesis pat_nonempty : pat <> [].
Hypothesis rep_shorter : (List.length rep < List.length pat)%nat.

Lemma replaceAll_length_bounded n s :
  (List.length s <= n)%nat ->
  (List.length (replaceAll pat rep s) <= List.length s)%nat
  /\ (includes pat s = true ->
      (List.length (replaceAll pat rep s) < List.length s)%nat).
Proof.
  revert s; induction n as [|n IH]; intros s Hlen.
  - destruct s; [|simpl in Hlen; lia]. split; [reflexivity|].
    destruct pat; [contradiction|discriminate].
  - destruct (replaceAll_cases pat rep s pat_nonempty)
      as [-> | [[rest [Hs E]] | [c [s' [Hs [Hno E]]]]]].
    + split; [reflexivity|]. destruct pat; [contradiction|discriminate].
    + rewrite E. subst s. rewrite !length_app in *.
      destruct (IH rest) as [Hle _]; lia.
    + rewrite E. subst s. simpl in *. destruct (IH s') as [Hle Hlt]; [lia|].
      split; [lia|]. rewrite Hno. simpl. intro H. specialize (Hlt H). lia.
Qed.

Lemma replaceAll_length s :
  (List.length (replaceAll pat rep s) <= List.length s)%nat.
Proof. now apply (replaceAll_length_bounded (List.length s)). Qed.

Lemma replaceAll_shorter s :
  includes pat s = true ->
  (List.length (replaceAll pat rep s) < List.length s)%nat.
Proof. now apply (replaceAll_length_bounded (List.length s)). Qed.

End ReplaceLength.

Lemma stableUnit_spec c :
  stableUnit c = true ->
  lowerUnit c = c /\ decompUnit c = [c] /\ isMark c = false /\ inTables c = true.
Proof.
  unfold stableUnit. intro H.
  apply andb_true_iff in H as [H H4]. apply andb_true_iff in H as [H H3].
  apply andb_true_iff in H as [H1 H2].
  apply N.eqb_eq in H1. apply str_eqb_eq in H2. apply negb_true_iff in H3. tauto.
Qed.

(** The base letters of the tables are stable. *)
Lemma baseOf_stable d : inTables d = true -> forallb stableUnit (baseOf d) = true.
Proof.
  intro H. destruct (N.le_gt_cases d 255) as [Hd|Hd].
  - assert (forall d, d < N.of_nat 256 -> forallb stableUnit (baseOf d) = true) as Hall
      by (apply units_below; vm_compute; reflexivity).
    apply Hall. lia.
  - assert (isMark d = true) as Hm.
    { unfold inTables in H. apply orb_true_iff in H as [H|H]; [|exact H].
      apply N.leb_le in H. lia. }
    now rewrite (proj1 (baseOf_mark d Hm)).
Qed.

Lemma stable_unaccented s :
  forallb inTables s = true ->
  forallb stableUnit (stripMarks (flat_map decompUnit (map lowerUnit s))) = true.
Proof.
  induction s as [|c s IH]; [reflexivity|]. simpl forallb at 1.
  intro H. apply andb_true_iff in H as [Hc Hs].
  rewrite stripMarks_flat_map_cons, forallb_app, (baseOf_stable c Hc). now apply IH.
Qed.

Lemma stable_fixed s :
  forallb stableUnit s = true ->
  map lowerUnit s = s /\ stripMarks (flat_map decompUnit s) = s
  /\ forallb inTables s = true.
Proof.
  induction s as [|c s IH]; [now repeat split|]. simpl forallb at 1.
  intro H. apply andb_true_iff in H as [Hc Hs].
  destruct (stableUnit_spec c Hc) as [H1 [H2 [H3 H4]]].
  destruct (IH Hs) as [E1 [E2 E3]]. repeat split.
  - simpl. now rewrite H1, E1.
  - unfold stripMarks in *. simpl. rewrite H2. simpl. now rewrite H3, E2.
  - simpl. now rewrite H4, E3.
Qed.

Lemma replaceHyphens_fixed s : ~ In 45 s -> replaceHyphens s = s.
Proof.
  induction s as [|c s IH]; [reflexivity|]. simpl. intro H.
  destruct (N.eqb_spec c 45) as [->|_]; [tauto|]. rewrite IH; tauto.
Qed.

Lemma replaceHyphens_no_hyphen s : Forall (fun c => c <> 45) (replaceHyphens s).
Proof.
  induction s as [|c s IH]; simpl; constructor; [|exact IH].
  destruct (N.eqb_spec c 45); [discriminate|assumption].
Qed.

Section TwiceProofs.

Context {R : StringRuntime}.

(** What the last five steps leave, whatever the runtime. *)
Lemma normalizeTitle_shape title :
  let t := normalizeTitle title in
  ~ In 45 t /\ collapsed t = true
  /\ headIsSpace t = false /\ headIsSpace (rev t) = false.
Proof.
  intro t. subst t. split; [|split].
  - intro Hin.
    assert (Forall (fun c => c <> 45) (normalizeTitle title)) as Hall.
    { apply Forall_normalizeTitle_unhyphenated; try discriminate.
      apply replaceHyphens_no_hyphen. }
    rewrite Forall_forall in Hall. now apply (Hall 45).
  - unfold normalizeTitle.
    apply collapsed_trim. do 2 (apply collapsed_replaceAll; try easy).
    apply collapseSpaces_collapsed.
  - apply trim_ends.
Qed.

(** When the runtime's steps leave a normalized title as it is,
    normalizing it again only abbreviates the unit words that it holds. *)
Lemma normalizeTitle_again title :
  toLowerCase (normalizeTitle title) = normalizeTitle title ->
  stripMarks (normalizeNFD (normalizeTitle title)) = normalizeTitle title ->
  normalizeTitle (normalizeTitle title)
  = trim (replaceAll (str "quilo") (str "kg")
            (replaceAll (str "litro") (str "l") (normalizeTitle title))).
Proof.
  intros E1 E2. destruct (normalizeTitle_shape title) as [Hhy [Hco _]].
  unfold normalizeTitle at 1. rewrite E1, E2.
  rewrite (replaceHyphens_fixed _ Hhy), (collapsed_fixed _ Hco). reflexivity.
Qed.

Lemma normalizeTitle_twice title :
  toLowerCase (normalizeTitle title) = normalizeTitle title ->
  stripMarks (normalizeNFD (normalizeTitle title)) = normalizeTitle title ->
  normalizeTitle (normalizeTitle title) = normalizeTitle title
  <-> includes (str "litro") (normalizeTitle title) = false
      /\ includes (str "quilo") (normalizeTitle title) = false.
Proof.
  intros E1 E2. rewrite (normalizeTitle_again title E1 E2).
  destruct (normalizeTitle_shape title) as [_ [_ [Hhd Htl]]].
  set (t := normalizeTitle title) in *.
  split.
  - intro E. apply (f_equal (@List.length N)) in E.
    pose proof (trim_length
      (replaceAll (str "quilo") (str "kg") (replaceAll (str "litro") (str "l") t))) as H1.
    pose proof (replaceAll_length (str "quilo") (str "kg") ltac:(discriminate)
      ltac:(simpl; lia) (replaceAll (str "litro") (str "l") t)) as H2.
    pose proof (replaceAll_length (str "litro") (str "l") ltac:(discriminate)
      ltac:(simpl; lia) t) as H3.
    destruct (includes (str "litro") t) eqn:El.
    + pose proof (replaceAll_shorter (str "litro") (str "l") ltac:(discriminate)
        ltac:(simpl; lia) t El). lia.
    + split; [reflexivity|]. rewrite (replaceAll_absent _ _ _ El) in *.
      destruct (includes (str "quilo") t) eqn:Eq; [|reflexivity].
      pose proof (replaceAll_shorter (str "quilo") (str "kg") ltac:(discriminate)
        ltac:(simpl; lia) t Eq). lia.
  - intros [El Eq]. rewrite (replaceAll_absent _ _ _ El), (replaceAll_absent _ _ _ Eq).
    now apply trim_fixed.
Qed.

Context {L : RuntimeLaws R}.

(** The runtime's steps leave the normalized form of a title of the
    tables as it is. *)
Lemma normalizeTitle_stable title :
  forallb inTables title = true ->
  toLowerCase (normalizeTitle title) = normalizeTitle title
  /\ stripMarks (normalizeNFD (normalizeTitle title)) = normalizeTitle title.
Proof.
  intro H.
  assert (forallb stableUnit (normalizeTitle title) = true) as Hst.
  { apply forallb_forall, Forall_forall. apply Forall_normalizeTitle; try reflexivity.
    apply Forall_forall, forallb_forall.
    rewrite (toLowerCase_tables title H).
    rewrite (normalizeNFD_tables _ (forallb_map_inTables _ H)).
    now apply stable_unaccented. }
  destruct (stable_fixed _ Hst) as [E1 [E2 E3]].
  rewrite (toLowerCase_tables _ E3), (normalizeNFD_tables _ E3). now split.
Qed.

(** Whatever the runtime, "litroitro" is normalized to "litro" and then
    to "l". *)
Lemma normalizeTitle_litroitro :
  normalizeTitle (str "litroitro") = str "litro"
  /\ normalizeTitle (normalizeTitle (str "litroitro")) = str "l".
Proof.
  assert (normalizeTitle (str "litroitro") = str "litro") as E
    by (rewrite normalizeTitle_tables by reflexivity; vm_compute; reflexivity).
  split; [exact E|]. rewrite E.
  rewrite normalizeTitle_tables by reflexivity. vm_compute. reflexivity.
Qed.

End TwiceProofs.

(** C2, as the code has it: when the runtime's lower case and removal of
    accents leave the normalized form of a title as it is, which they do
    for every title of Basic Latin, Latin-1 Supplement and combining marks,
    normalizing the title a second time changes nothing exactly when its
    normalized form holds neither "litro" nor "quilo". *)
Theorem normalizeTitle_idempotent_without_unit_words
  (R : StringRuntime) (L : RuntimeLaws R) (title : jsstring) :
  (toLowerCase (normalizeTitle title) = normalizeTitle title ->
   stripMarks (normalizeNFD (normalizeTitle title)) = normalizeTitle title ->
   (normalizeTitle (normalizeTitle title) = normalizeTitle title
    <-> includes (str "litro") (normalizeTitle title) = false
        /\ includes (str "quilo") (normalizeTitle title) = false))
  /\ (forallb inTables title = true ->
      (normalizeTitle (normalizeTitle title) = normalizeTitle title
       <-> includes (str "litro") (normalizeTitle title) = false
           /\ includes (str "quilo") (normalizeTitle title) = false)).
Proof.
  split; [apply normalizeTitle_twice|].
  intro H. destruct (normalizeTitle_stable title H) as [E1 E2].
  now apply normalizeTitle_twice.
Qed.

Lemma normalizeTitle_idempotent_without_unit_words_witness :
  normalizeTitle (R := latin1_runtime)
    (normalizeTitle (R := latin1_runtime) (str "Leite  Semi-Desnatado 1 Litro "))
  = normalizeTitle (R := latin1_runtime) (str "Leite  Semi-Desnatado 1 Litro ").
Proof.
  apply (proj2 (proj2 (normalizeTitle_idempotent_without_unit_words
                         latin1_runtime latin1_laws
                         (str "Leite  Semi-Desnatado 1 Litro ")) eq_refl)).
  split; reflexivity.
Defined.

(** C2 as stated fails: "litroitro" is normalized to "litro", and
    "litro" to "l". *)
Lemma normalizeTitle_not_idempotent :
  normalizeTitle (R := latin1_runtime)
    (normalizeTitle (R := latin1_runtime) (str "litroitro"))
  <> normalizeTitle (R := latin1_runtime) (str "litroitro").
Proof. vm_compute. discriminate. Qed.

(** * Further properties *)

(** ** The shape of a normalized title *)

Lemma collapsed_units s c :
  collapsed s = true -> In c s -> isSpace c = true -> c = 32.
Proof.
  induction s as [|d s IH]; simpl; [contradiction|].
  intros H [->|Hin] Hc.
  - rewrite Hc in H. apply andb_true_iff in H as [H _].
    apply andb_true_iff in H as [H _]. now apply N.eqb_eq.
  - apply andb_true_iff in H as [_ H]. now apply IH.
Qed.

Lemma collapsed_no_run s a c d b :
  collapsed s = true -> s = a ++ c :: d :: b ->
  isSpace c = true -> isSpace d = true -> False.
Proof.
  intros H -> Hc Hd. apply collapsed_app_r in H. simpl in H.
  rewrite Hc, Hd in H. simpl in H. now rewrite andb_false_r in H.
Qed.

(** X1: whatever the title and the runtime, the normalized title holds no
    hyphen, its only white space is the space U+0020, no two spaces are
    adjacent, and it neither starts nor ends with a space. *)
Theorem normalizeTitle_output_shape (R : StringRuntime) (title : jsstring) :
  ~ In 45 (normalizeTitle title)
  /\ (forall c, In c (normalizeTitle title) -> isSpace c = true -> c = 32)
  /\ (forall a c d b,
        normalizeTitle title = a ++ c :: d :: b ->
        isSpace c = true -> isSpace d = true -> False)
  /\ headIsSpace (normalizeTitle title) = false
  /\ headIsSpace (rev (normalizeTitle title)) = false.
Proof.
  destruct (normalizeTitle_shape title) as [Hh [Hc [H1 H2]]].
  split; [exact Hh|]. split; [|split; [|split; assumption]].
  - intros c. now apply collapsed_units.
  - intros a c d b. now apply collapsed_no_run.
Qed.

Lemma normalizeTitle_output_shape_witness :
  In 32 (normalizeTitle (R := latin1_runtime) (str "Leite" ++ [9; 9] ++ str "Desnatado"))
  /\ 32 = 32.
Proof.
  assert (In 32 (normalizeTitle (R := latin1_runtime)
                   (str "Leite" ++ [9; 9] ++ str "Desnatado"))) as H
    by (vm_compute; tauto).
  split; [exact H|].
  apply (proj1 (proj2 (normalizeTitle_output_shape latin1_runtime
                         (str "Leite" ++ [9; 9] ++ str "Desnatado"))) 32 H).
  reflexivity.
Defined.

(** ** Hyphens and spaces *)

Lemma replaceHyphens_app a b :
  replaceHyphens (a ++ b) = replaceHyphens a ++ replaceHyphens b.
Proof. apply map_app. Qed.

Lemma replaceHyphens_baseOf c :
  inTables c = true ->
  replaceHyphens (baseOf (if c =? 45 then 32 else c)) = replaceHyphens (baseOf c).
Proof.
  intros _. destruct (N.eqb_spec c 45) as [->|_]; reflexivity.
Qed.

Lemma replaceHyphens_unaccented s :
  forallb inTables s = true ->
  replaceHyphens (stripMarks (flat_map decompUnit (map lowerUnit (replaceHyphens s))))
  = replaceHyphens (stripMarks (flat_map decompUnit (map lowerUnit s))).
Proof.
  induction s as [|c s IH]; [reflexivity|]. simpl forallb.
  intro H. apply andb_true_iff in H as [Hc Hs].
  change (replaceHyphens (c :: s))
    with ((if c =? 45 then 32 else c) :: replaceHyphens s).
  rewrite !stripMarks_flat_map_cons, !replaceHyphens_app.
  now rewrite replaceHyphens_baseOf, IH.
Qed.

Lemma replaceHyphens_inTables s :
  forallb inTables s = true -> forallb inTables (replaceHyphens s) = true.
Proof.
  induction s as [|c s IH]; [reflexivity|]. simpl.
  intro H. apply andb_true_iff in H as [Hc Hs]. rewrite (IH Hs), andb_true_r.
  now destruct (c =? 45).
Qed.

Section HyphenProofs.

Context {R : StringRuntime} {L : RuntimeLaws R}.

Lemma normalizeTitle_replaceHyphens title :
  forallb inTables title = true ->
  normalizeTitle (replaceHyphens title) = normalizeTitle title.
Proof.
  intro H.
  rewrite (normalizeTitle_tables title H).
  rewrite (normalizeTitle_tables _ (replaceHyphens_inTables _ H)).
  unfold normalizeTitle. simpl. now rewrite replaceHyphens_unaccented.
Qed.

End HyphenProofs.

(** X2: on titles of Basic Latin, Latin-1 Supplement and combining marks
    a hyphen counts as a space: replacing the hyphens of a title by spaces
    does not change its normalized form, so "a-b" and "a b" are normalized
    alike and get the same key. *)
Theorem normalizeTitle_hyphen_is_space (R : StringRuntime) (L : RuntimeLaws R) :
  (forall title,
     forallb inTables title = true ->
     normalizeTitle (replaceHyphens title) = normalizeTitle title)
  /\ (forall a b,
        forallb inTables a = true -> forallb inTables b = true ->
        normalizeTitle (a ++ 45 :: b) = normalizeTitle (a ++ 32 :: b)
        /\ generateProductKey (normalizeTitle (a ++ 45 :: b))
           = generateProductKey (normalizeTitle (a ++ 32 :: b))).
Proof.
  split; [apply @normalizeTitle_replaceHyphens; assumption|].
  intros a b Ha Hb.
  assert (normalizeTitle (a ++ 45 :: b) = normalizeTitle (a ++ 32 :: b)) as E.
  { rewrite <- (normalizeTitle_replaceHyphens (a ++ 45 :: b)),
            <- (normalizeTitle_replaceHyphens (a ++ 32 :: b)).
    - now rewrite !replaceHyphens_app.
    - rewrite forallb_app. simpl. now rewrite Ha, Hb.
    - rewrite forallb_app. simpl. now rewrite Ha, Hb. }
  split; [exact E | now rewrite E].
Qed.

Lemma normalizeTitle_hyphen_is_space_witness :
  normalizeTitle (R := latin1_runtime) (str "Leite Semi-Desnatado 1L")
  = normalizeTitle (R := latin1_runtime) (str "Leite Semi Desnatado 1L").
Proof.
  apply (proj1 (proj2 (normalizeTitle_hyphen_is_space latin1_runtime latin1_laws)
                  (str "Leite Semi") (str "Desnatado 1L") eq_refl eq_refl)).
Defined.

(** X3: the test for "semi-desnatado" written with a hyphen never
    succeeds on a normalized title, whatever the runtime: the variant
    "semi desnatado" is only ever found through the spelling with a
    space. *)
Theorem hyphenated_variant_test_unused (R : StringRuntime) (title : jsstring) :
  includes (str "semi-desnatado") (normalizeTitle title) = false
  /\ (variant (extractFeatures (normalizeTitle title)) = str "semi desnatado" ->
      includes (str "semi desnatado") (normalizeTitle title) = true).
Proof.
  assert (includes (str "semi-desnatado") (normalizeTitle title) = false) as E.
  { destruct (includes (str "semi-desnatado") (normalizeTitle title)) eqn:E; [|reflexivity].
    exfalso. apply (proj1 (normalizeTitle_shape title)).
    apply (includes_In _ _ _ E). simpl. tauto. }
  split; [exact E|].
  rewrite extractFeatures_classify. unfold classify. rewrite E, orb_false_r.
  destruct (includes (str "semi desnatado") (normalizeTitle title)); [reflexivity|].
  simpl.
  repeat match goal with
    | |- context [includes ?m (normalizeTitle title)] =>
        destruct (includes m (normalizeTitle title)); simpl
    end; discriminate.
Qed.

Lemma hyphenated_variant_test_unused_witness :
  includes (str "semi desnatado")
    (normalizeTitle (R := latin1_runtime) (str "Leite Semi-Desnatado Italac 1L")) = true.
Proof.
  apply (proj2 (hyphenated_variant_test_unused latin1_runtime
                  (str "Leite Semi-Desnatado Italac 1L"))).
  vm_compute. reflexivity.
Defined.

(** ** Keys and features *)

Lemma noHyphen_split a a' r r' :
  noHyphen a = true -> noHyphen a' = true ->
  a ++ 45 :: r = a' ++ 45 :: r' -> a = a' /\ r = r'.
Proof.
  revert a'. induction a as [|c a IH]; intros [|c' a'] Ha Ha' E; simpl in *.
  - injection E as ->. now split.
  - injection E as <- _. discriminate Ha'.
  - injection E as -> _. discriminate Ha.
  - apply andb_true_iff in Ha as [_ Ha]. apply andb_true_iff in Ha' as [_ Ha'].
    injection E as -> E. destruct (IH a' Ha Ha' E) as [-> ->]. now split.
Qed.

Lemma classify_noHyphen t :
  noHyphen (fst (fst (classify t))) = true
  /\ noHyphen (snd (fst (classify t))) = true
  /\ noHyphen (snd (classify t)) = true.
Proof.
  unfold classify.
  repeat match goal with
    | |- context [includes ?m t] => destruct (includes m t); simpl
    end; repeat split.
Qed.

Section KeyFeatureProofs.

Context {R : StringRuntime}.

Lemma keyOf_extractFeatures_injective t1 t2 :
  keyOf (extractFeatures t1) = keyOf (extractFeatures t2) ->
  extractFeatures t1 = extractFeatures t2.
Proof.
  rewrite !extractFeatures_classify. unfold keyOf. simpl.
  destruct (classify_noHyphen t1) as [H1 [H2 H3]].
  destruct (classify_noHyphen t2) as [H1' [H2' H3']].
  intro E.
  apply noHyphen_split in E as [-> E]; [|assumption..].
  apply noHyphen_split in E as [-> E]; [|assumption..].
  apply noHyphen_split in E as [-> ->]; [|assumption..].
  reflexivity.
Qed.

End KeyFeatureProofs.

(** X4: the key determines the four features: two titles have the same
    key exactly when they have the same type, brand, variant and size (no
    token of the first three holds the separator). *)
Theorem generateProductKey_features (R : StringRuntime) (t1 t2 : jsstring) :
  generateProductKey t1 = generateProductKey t2
  <-> extractFeatures t1 = extractFeatures t2.
Proof.
  unfold generateProductKey. split.
  - apply keyOf_extractFeatures_injective.
  - now intros ->.
Qed.

Lemma generateProductKey_features_witness :
  extractFeatures (R := latin1_runtime) (str "leite integral italac 1l caixa")
  = extractFeatures (R := latin1_runtime) (str "italac leite 1 l integral").
Proof.
  apply (proj1 (generateProductKey_features latin1_runtime
                  (str "leite integral italac 1l caixa")
                  (str "italac leite 1 l integral"))).
  vm_compute. reflexivity.
Defined.

(** ** What the categories hold *)

Lemma Forall2_map_r {A B} (P : A -> B -> Prop) (f : A -> B) l :
  (forall x, In x l -> P x (f x)) -> Forall2 P l (map f l).
Proof.
  induction l as [|x l IH]; intro H; simpl; constructor.
  - apply H. now left.
  - apply IH. intros y Hy. apply H. now right.
Qed.

Section CategoryProofs.

Context {R : StringRuntime}.

Lemma membersOf_key key products p :
  In p (membersOf key products) -> In p products /\ productKey p = key.
Proof.
  unfold membersOf. rewrite filter_In. intros [H E]. now apply str_eqb_eq in E.
Qed.

Lemma categoryOf_invariant products key :
  In key (map productKey products) ->
  match Category.products (categoryOf products key) with
  | first :: _ => Category.category (categoryOf products key) = ProductInfo.title first
  | [] => False
  end
  /\ Forall (fun info => infoKey info = key)
       (Category.products (categoryOf products key)).
Proof.
  intro H. apply membersOf_nonempty in H. unfold categoryOf. simpl. split.
  - destruct (membersOf key products); [contradiction|reflexivity].
  - apply Forall_forall. intros info Hin. apply in_map_iff in Hin as [p [<- Hp]].
    now apply membersOf_key in Hp.
Qed.

Lemma allInfos_mapPush key info m :
  mapHas key m = true ->
  Permutation (allInfos (mapPush key info m)) (allInfos m ++ [info]).
Proof.
  unfold allInfos. induction m as [|[k v] m IH]; simpl; [discriminate|].
  destruct (str_eqb k key); simpl; intro H.
  - rewrite <- !app_assoc. apply Permutation_app_head, Permutation_app_comm.
  - rewrite <- app_assoc. now apply Permutation_app_head, IH.
Qed.

Lemma allInfos_addProduct m p :
  Permutation (allInfos (addProduct m p)) (allInfos m ++ [productInfo p]).
Proof.
  unfold addProduct. destruct (mapHas (productKey p) m) eqn:H.
  - now apply allInfos_mapPush.
  - rewrite mapSet_absent by exact H. unfold allInfos.
    rewrite flat_map_app. simpl. rewrite ?app_nil_r. reflexivity.
Qed.

Lemma allInfos_fold products m :
  Permutation (allInfos (fold_left addProduct products m))
              (allInfos m ++ map productInfo products).
Proof.
  revert m. induction products as [|p ps IH]; intro m; simpl.
  - now rewrite app_nil_r.
  - rewrite IH, allInfos_addProduct, <- app_assoc. reflexivity.
Qed.

Lemma allInfos_categories m :
  List.concat (map Category.products (map toCategory (map snd m))) = allInfos m.
Proof.
  unfold allInfos. rewrite !map_map, flat_map_concat_map. reflexivity.
Qed.

Lemma firstSeen_length keys : (List.length (firstSeen keys) <= List.length keys)%nat.
Proof.
  induction keys as [|k keys IH]; simpl; [lia|].
  pose proof (filter_length_le (fun k' => negb (str_eqb k' k)) (firstSeen keys)). lia.
Qed.

Lemma filter_all {A} (f : A -> bool) l :
  (forall x, In x l -> f x = true) -> filter f l = l.
Proof.
  induction l as [|x l IH]; intro H; simpl; [reflexivity|].
  rewrite (H x) by now left. f_equal. apply IH. intros y Hy. apply H. now right.
Qed.

Lemma firstSeen_distinct keys : NoDup keys -> firstSeen keys = keys.
Proof.
  induction 1 as [|k keys Hk Hnd IH]; simpl; [reflexivity|].
  rewrite IH. f_equal. apply filter_all. intros k' Hk'.
  apply negb_true_iff, str_eqb_neq. intros ->. contradiction.
Qed.

Lemma membersOf_distinct products p :
  NoDup (map productKey products) -> In p products ->
  membersOf (productKey p) products = [p].
Proof.
  unfold membersOf. induction products as [|q ps IH]; simpl; [contradiction|].
  intros Hnd Hin. inversion Hnd as [|k ks Hq Hps]; subst.
  destruct Hin as [->|Hin].
  - rewrite str_eqb_refl. f_equal. apply filter_none. intros r Hr.
    apply str_eqb_neq. intro E. apply Hq. rewrite <- E. now apply in_map.
  - destruct (str_eqb (productKey q) (productKey p)) eqn:E.
    + apply str_eqb_eq in E. exfalso. apply Hq. rewrite E. now apply in_map.
    + now apply IH.
Qed.

Lemma hasKey_cons key k keys : hasKey key (k :: keys) = str_eqb k key || hasKey key keys.
Proof. reflexivity. Qed.

Lemma filter_filter {A} (f g : A -> bool) l :
  filter f (filter g l) = filter (fun x => g x && f x) l.
Proof.
  induction l as [|x l IH]; simpl; [reflexivity|].
  destruct (g x); simpl; [destruct (f x); now rewrite IH | exact IH].
Qed.

Lemma firstSeen_app keys1 keys2 :
  firstSeen (keys1 ++ keys2)
  = firstSeen keys1 ++ filter (fun k => negb (hasKey k keys1)) (firstSeen keys2).
Proof.
  induction keys1 as [|k keys1 IH]; simpl.
  - symmetry. now apply filter_all.
  - rewrite IH, filter_app, filter_filter. do 2 f_equal.
    apply filter_ext. intro k'. unfold hasKey. simpl.
    rewrite negb_orb, (str_eqb_sym k k'). apply andb_comm.
Qed.

Lemma addProduct_addInfo m p : addProduct m p = addInfo m (productInfo p).
Proof. reflexivity. Qed.

Lemma buildMap_infos products :
  buildMap products = fold_left addInfo (map productInfo products) [].
Proof.
  unfold buildMap. generalize (@nil (jsstring * Entry.t)).
  induction products as [|p ps IH]; intro m; simpl; [reflexivity|].
  now rewrite IH.
Qed.

End CategoryProofs.

(** X5: in the result no category is empty, the title of a category is
    the title of its first product, all the products of a category have
    the key of that category, and the keys of the categories are pairwise
    distinct. *)
Theorem categorizeProducts_categories (R : StringRuntime) (products : list Product.t) :
  NoDup (firstSeen (map productKey products))
  /\ Forall2
       (fun key c =>
          match Category.products c with
          | first :: _ => Category.category c = ProductInfo.title first
          | [] => False
          end
          /\ Forall (fun info => infoKey info = key) (Category.products c))
       (firstSeen (map productKey products))
       (categorizeProducts products).
Proof.
  split; [apply firstSeen_NoDup|].
  rewrite categorizeProducts_spec. unfold categorizeSpec.
  apply Forall2_map_r. intros key Hkey.
  apply categoryOf_invariant. now apply (proj1 (firstSeen_In _ _)).
Qed.

(** X6: every input record is in the result exactly as often as in the
    input: the products of all the categories, put end to end, are a
    permutation of the input records without their ids. *)
Theorem categorizeProducts_permutation (R : StringRuntime) (products : list Product.t) :
  Permutation (List.concat (map Category.products (categorizeProducts products)))
              (map (fun p => {| ProductInfo.title := Product.title p;
                                ProductInfo.supermarket := Product.supermarket p |})
                   products).
Proof.
  change (fun p => {| ProductInfo.title := Product.title p;
                      ProductInfo.supermarket := Product.supermarket p |})
    with productInfo.
  unfold categorizeProducts, buildMap.
  rewrite allInfos_categories. apply (allInfos_fold products []).
Qed.

(** X7: there are at most as many categories as records, and none only
    for the empty input; when the keys of the records are pairwise
    distinct, every record is a category of its own, in input order. *)
Theorem categorizeProducts_size (R : StringRuntime) (products : list Product.t) :
  (List.length (categorizeProducts products) <= List.length products)%nat
  /\ (categorizeProducts products = [] <-> products = [])
  /\ (NoDup (map productKey products) ->
      categorizeProducts products
      = map (fun p => {| Category.category := Product.title p;
                         Category.count := 1;
                         Category.products :=
                           [ {| ProductInfo.title := Product.title p;
                                ProductInfo.supermarket := Product.supermarket p |} ] |})
            products).
Proof.
  rewrite categorizeProducts_spec. unfold categorizeSpec. split; [|split].
  - rewrite length_map.
    pose proof (firstSeen_length (map productKey products)) as H.
    now rewrite length_map in H.
  - split; [|now intros ->].
    destruct products as [|p ps]; [reflexivity|discriminate].
  - intro Hnd. rewrite firstSeen_distinct by exact Hnd. rewrite map_map.
    apply map_ext_in. intros p Hp. unfold categoryOf.
    now rewrite membersOf_distinct.
Qed.

Lemma categorizeProducts_size_witness :
  categorizeProducts (R := latin1_runtime)
    [ {| Product.id := 7; Product.title := str "Arroz Branco 5kg";
         Product.supermarket := str "A" |};
      {| Product.id := 7; Product.title := str "Arroz Integral 5kg";
         Product.supermarket := str "A" |} ]
  = [ {| Category.category := str "Arroz Branco 5kg"; Category.count := 1;
         Category.products := [ {| ProductInfo.title := str "Arroz Branco 5kg";
                                   ProductInfo.supermarket := str "A" |} ] |};
      {| Category.category := str "Arroz Integral 5kg"; Category.count := 1;
         Category.products := [ {| ProductInfo.title := str "Arroz Integral 5kg";
                                   ProductInfo.supermarket := str "A" |} ] |} ].
Proof.
  apply (proj2 (proj2 (categorizeProducts_size latin1_runtime
    [ {| Product.id := 7; Product.title := str "Arroz Branco 5kg";
         Product.supermarket := str "A" |};
      {| Product.id := 7; Product.title := str "Arroz Integral 5kg";
         Product.supermarket := str "A" |} ]))).
  vm_compute. repeat constructor; simpl; intuition discriminate.
Defined.

(** X8: a batch processed in two parts: the categories of the first part
    keep their place and their title and receive the records of the second
    part that have their key; the categories of the keys that only the
    second part has follow, as the second part alone gives them. *)
Theorem categorizeProducts_app (R : StringRuntime) (first second : list Product.t) :
  categorizeProducts (first ++ second)
  = map (fun key =>
           appendMembers (categoryOf first key)
             (map (fun p => {| ProductInfo.title := Product.title p;
                               ProductInfo.supermarket := Product.supermarket p |})
                  (membersOf key second)))
        (firstSeen (map productKey first))
    ++ map (categoryOf second)
         (filter (fun key => negb (hasKey key (map productKey first)))
            (firstSeen (map productKey second))).
Proof.
  rewrite categorizeProducts_spec. unfold categorizeSpec.
  rewrite map_app, firstSeen_app, map_app. f_equal.
  - apply map_ext_in. intros key Hkey.
    apply (proj1 (firstSeen_In _ _)), membersOf_nonempty in Hkey.
    unfold categoryOf, appendMembers, membersOf in *. simpl.
    rewrite filter_app, map_app, !length_app, !length_map.
    destruct (filter _ first); [contradiction|reflexivity].
  - apply map_ext_in. intros key Hkey. apply filter_In in Hkey as [_ Hkey].
    apply negb_true_iff in Hkey.
    assert (membersOf key first = []) as E.
    { apply membersOf_absent. intro Hin. apply hasKey_In in Hin. congruence. }
    unfold categoryOf, membersOf in *. now rewrite filter_app, E.
Qed.

(** X9: the result depends on the records only through their title and
    their supermarket: the id of a record is not read. *)
Theorem categorizeProducts_ignores_id (R : StringRuntime) (products products' : list Product.t) :
  map productInfo products = map productInfo products' ->
  categorizeProducts products = categorizeProducts products'.
Proof.
  intro H. unfold categorizeProducts. now rewrite !buildMap_infos, H.
Qed.

Lemma categorizeProducts_ignores_id_witness :
  categorizeProducts (R := latin1_runtime)
    [ {| Product.id := 1; Product.title := str "Leite 1L"; Product.supermarket := str "A" |} ]
  = categorizeProducts (R := latin1_runtime)
      [ {| Product.id := 2; Product.title := str "Leite 1L"; Product.supermarket := str "A" |} ].
Proof.
  apply (categorizeProducts_ignores_id latin1_runtime). reflexivity.
Defined.

(** ** Records that are not well formed *)

Section DynamicProofs.

Context {R : StringRuntime}.

Lemma Dynamic_addProduct_accepts m v :
  isProduct v = true -> exists m', Dynamic.addProduct m v = Returned m'.
Proof.
  unfold isProduct, Dynamic.addProduct. destruct v; try discriminate. simpl.
  destruct (ownProperty (str "title") properties); try discriminate. simpl.
  intros _. destruct (Dynamic.mapHas _ m); eexists; reflexivity.
Qed.

Lemma Dynamic_addProduct_rejects m v :
  isProduct v = false -> exists cause, Dynamic.addProduct m v = Threw (TypeError cause).
Proof.
  unfold isProduct, Dynamic.addProduct. destruct v; simpl;
    try (intros _; eexists; reflexivity).
  destruct (ownProperty (str "title") properties); simpl;
    try (intros _; eexists; reflexivity).
  discriminate.
Qed.

Lemma Dynamic_forEach_accepts elements m :
  forallb isProduct elements = true ->
  exists m', Dynamic.forEach elements m = Returned m'.
Proof.
  revert m. induction elements as [|v l IH]; intros m H; simpl in *.
  - now exists m.
  - apply andb_true_iff in H as [Hv Hl].
    destruct (Dynamic_addProduct_accepts m v Hv) as [m' ->]. simpl. now apply IH.
Qed.

Lemma Dynamic_forEach_rejects elements m :
  forallb isProduct elements = false ->
  exists cause, Dynamic.forEach elements m = Threw (TypeError cause).
Proof.
  revert m. induction elements as [|v l IH]; intros m H; simpl in *; [discriminate|].
  destruct (isProduct v) eqn:Hv.
  - destruct (Dynamic_addProduct_accepts m v Hv) as [m' ->]. simpl. now apply IH.
  - destruct (Dynamic_addProduct_rejects m v Hv) as [cause ->]. now exists cause.
Qed.

(** The map of the dynamic loop, seen through [supermarketOf], is the map
    of the typed loop. *)
Lemma mapOfDyn_mapHas g key m : mapHas key (mapOfDyn g m) = Dynamic.mapHas key m.
Proof.
  unfold mapHas, Dynamic.mapHas, mapOfDyn. induction m as [|[k v] m IH]; simpl;
    [reflexivity|]. now rewrite IH.
Qed.

Lemma mapOfDyn_mapPush g key info m :
  mapOfDyn g (Dynamic.mapPush key info m) = mapPush key (infoOf g info) (mapOfDyn g m).
Proof.
  unfold mapOfDyn. induction m as [|[k v] m IH]; simpl; [reflexivity|].
  destruct (str_eqb k key); simpl.
  - unfold entryOfDyn. simpl. now rewrite map_app.
  - now rewrite IH.
Qed.

Lemma mapOfDyn_mapSet g key entry m :
  mapOfDyn g (Dynamic.mapSet key entry m) = mapSet key (entryOfDyn g entry) (mapOfDyn g m).
Proof.
  unfold mapOfDyn. induction m as [|[k v] m IH]; simpl; [reflexivity|].
  destruct (str_eqb k key); simpl; [reflexivity|]. now rewrite IH.
Qed.

Lemma Dynamic_addProduct_typed g m v :
  isProduct v = true ->
  exists m', Dynamic.addProduct m v = Returned m'
             /\ mapOfDyn g m' = addProduct (mapOfDyn g m) (productOf g v).
Proof.
  unfold isProduct, Dynamic.addProduct, addProduct, productKey, productOf.
  destruct v; try discriminate. simpl.
  destruct (ownProperty (str "title") properties) as [| | | |title| |];
    try discriminate. simpl.
  intros _. rewrite mapOfDyn_mapHas.
  destruct (Dynamic.mapHas _ m); eexists; (split; [reflexivity|]).
  - apply mapOfDyn_mapPush.
  - apply mapOfDyn_mapSet.
Qed.

Lemma Dynamic_forEach_typed g elements m :
  forallb isProduct elements = true ->
  exists m', Dynamic.forEach elements m = Returned m'
             /\ mapOfDyn g m' = fold_left addProduct (map (productOf g) elements) (mapOfDyn g m).
Proof.
  revert m. induction elements as [|v l IH]; intros m H; simpl in *.
  - now exists m.
  - apply andb_true_iff in H as [Hv Hl].
    destruct (Dynamic_addProduct_typed g m v Hv) as [m1 [-> E1]]. simpl.
    destruct (IH m1 Hl) as [m2 [-> E2]]. exists m2. now rewrite E2, E1.
Qed.

Lemma categoryOfDyn_toCategory g m :
  map (categoryOfDyn g) (map Dynamic.toCategory (map snd m))
  = map toCategory (map snd (mapOfDyn g m)).
Proof.
  unfold mapOfDyn. rewrite !map_map. apply map_ext. intros [k e].
  unfold categoryOfDyn, toCategory, Dynamic.toCategory, entryOfDyn. simpl.
  now rewrite length_map.
Qed.

Lemma productOf_valueOfProduct p : productOf stringOf (valueOfProduct p) = p.
Proof. now destruct p. Qed.

Lemma isProduct_valueOfProduct p : isProduct (valueOfProduct p) = true.
Proof. reflexivity. Qed.

End DynamicProofs.

(** X10: [categorizeProducts] returns exactly for an array whose elements
    are all objects with a string as title; for every other value it
    throws a [TypeError], and nothing else. *)
Theorem categorizeProducts_accepts (R : StringRuntime) (products : value) :
  (isProductArray products = true ->
   exists categories, Dynamic.categorizeProducts products = Returned categories)
  /\ (isProductArray products = false ->
      exists cause, Dynamic.categorizeProducts products = Threw (TypeError cause)).
Proof.
  unfold isProductArray, Dynamic.categorizeProducts. split.
  - destruct products; try discriminate. intro H.
    destruct (Dynamic_forEach_accepts elements [] H) as [m ->]. eexists. reflexivity.
  - destruct products; try (intros _; eexists; reflexivity). intro H.
    destruct (Dynamic_forEach_rejects elements [] H) as [cause ->]. now exists cause.
Qed.

Lemma categorizeProducts_accepts_witness :
  exists cause,
    Dynamic.categorizeProducts (R := latin1_runtime)
      (VArray [ VObject [ (str "title", VString (str "Leite 1L")) ];
                VObject [ (str "title", VNumber 0) ] ])
    = Threw (TypeError cause).
Proof.
  apply (proj2 (categorizeProducts_accepts latin1_runtime
    (VArray [ VObject [ (str "title", VString (str "Leite 1L")) ];
              VObject [ (str "title", VNumber 0) ] ]))).
  reflexivity.
Defined.

(** X11: on an array of records the function on values does what the
    function on typed records does: whatever the reading [supermarketOf]
    of the supermarkets, its categories seen through that reading are the
    categories of the records seen through it; in particular typed records
    given as values lead to the typed result. *)
Theorem categorizeProducts_typed (R : StringRuntime) :
  (forall supermarketOf elements,
     forallb isProduct elements = true ->
     exists categories,
       Dynamic.categorizeProducts (VArray elements) = Returned categories
       /\ map (categoryOfDyn supermarketOf) categories
          = categorizeProducts (map (productOf supermarketOf) elements))
  /\ (forall products,
        exists categories,
          Dynamic.categorizeProducts (VArray (map valueOfProduct products))
          = Returned categories
          /\ map (categoryOfDyn stringOf) categories = categorizeProducts products).
Proof.
  assert (forall g elements,
            forallb isProduct elements = true ->
            exists categories,
              Dynamic.categorizeProducts (VArray elements) = Returned categories
              /\ map (categoryOfDyn g) categories
                 = categorizeProducts (map (productOf g) elements)) as H.
  { intros g elements He. unfold Dynamic.categorizeProducts.
    destruct (Dynamic_forEach_typed g elements [] He) as [m [-> E]]. simpl.
    eexists. split; [reflexivity|].
    rewrite categoryOfDyn_toCategory, E. reflexivity. }
  split; [exact H|]. intro products.
  destruct (H stringOf (map valueOfProduct products)) as [categories [E1 E2]].
  - apply forallb_forall. intros v Hv. apply in_map_iff in Hv as [p [<- _]].
    apply isProduct_valueOfProduct.
  - exists categories. split; [exact E1|]. rewrite E2, map_map. f_equal.
    rewrite <- (map_id products) at 2. apply map_ext. apply productOf_valueOfProduct.
Qed.

Lemma categorizeProducts_typed_witness :
  exists categories,
    Dynamic.categorizeProducts (R := latin1_runtime)
      (VArray [ VObject [ (str "title", VString (str "Leite 1L")) ];
                VObject [ (str "supermarket", VNull);
                          (str "title", VString (str "LEITE 1l")) ] ])
    = Returned categories
    /\ map (categoryOfDyn stringOf) categories
       = categorizeProducts (R := latin1_runtime)
           (map (productOf stringOf)
              [ VObject [ (str "title", VString (str "Leite 1L")) ];
                VObject [ (str "supermarket", VNull);
                          (str "title", VString (str "LEITE 1l")) ] ]).
Proof.
  apply (proj1 (categorizeProducts_typed latin1_runtime) stringOf). reflexivity.
Defined.

(** ** The file, the console and the process *)

Section ShellProofs.

Context {R : StringRuntime} {node : NodeRuntime}.

Ltac run_shell :=
  unfold processJsonFile, tryCatch, ioBind, readFile, lift, writeFile,
    consoleLog, consoleError, throw, ret; simpl.

Lemma processJsonFile_throws inputFilePath outputFilePath w w' e :
  processJsonFile inputFilePath outputFilePath w = (w', Threw e) ->
  stdout w' = stdout w
  /\ stderr w' = stderr w ++ [failureLine e]
  /\ (fileSystem w' = fileSystem w
      \/ exists rawData products categorized,
           readFileSync (fileSystem w) inputFilePath = Returned rawData
           /\ JSON_parse rawData = Returned products
           /\ Dynamic.categorizeProducts products = Returned categorized
           /\ writeFileSync (fileSystem w) (outputPathOf outputFilePath)
                (JSON_stringify categorized)
              = (fileSystem w', Some e)).
Proof.
  run_shell. fold (outputPathOf outputFilePath).
  destruct (readFileSync (fileSystem w) inputFilePath) as [rawData|e1] eqn:Hread.
  2:{ intro H. injection H as <- <-. simpl. tauto. }
  destruct (JSON_parse rawData) as [products|e1] eqn:Hparse.
  2:{ intro H. injection H as <- <-. simpl. tauto. }
  destruct (Dynamic.categorizeProducts products) as [categorized|e1] eqn:Hcat.
  2:{ intro H. injection H as <- <-. simpl. tauto. }
  destruct (writeFileSync (fileSystem w) (outputPathOf outputFilePath)
              (JSON_stringify categorized)) as [fs [e1|]] eqn:Hwrite; simpl.
  - intro H. injection H as <- <-. simpl. repeat split.
    right. exists rawData, products, categorized. now repeat split.
  - discriminate.
Qed.

Lemma processJsonFile_returns inputFilePath outputFilePath w w' categorized :
  processJsonFile inputFilePath outputFilePath w = (w', Returned categorized)
  <-> exists rawData products,
        readFileSync (fileSystem w) inputFilePath = Returned rawData
        /\ JSON_parse rawData = Returned products
        /\ Dynamic.categorizeProducts products = Returned categorized
        /\ writeFileSync (fileSystem w) (outputPathOf outputFilePath)
             (JSON_stringify categorized)
           = (fileSystem w', None)
        /\ stdout w' = stdout w ++ [savedLine (outputPathOf outputFilePath)]
        /\ stderr w' = stderr w.
Proof.
  run_shell. fold (outputPathOf outputFilePath). split.
  - destruct (readFileSync (fileSystem w) inputFilePath) as [rawData|e1] eqn:Hread;
      [|discriminate].
    destruct (JSON_parse rawData) as [products|e1] eqn:Hparse; [|discriminate].
    destruct (Dynamic.categorizeProducts products) as [cats|e1] eqn:Hcat; [|discriminate].
    destruct (writeFileSync (fileSystem w) (outputPathOf outputFilePath)
                (JSON_stringify cats)) as [fs [e1|]] eqn:Hwrite; simpl; [discriminate|].
    intro H. injection H as <- <-. simpl.
    exists rawData, products. rewrite Hwrite. now repeat split.
  - intros [rawData [products [-> [-> [-> [Hwrite [Hout Herr]]]]]]].
    rewrite Hwrite. simpl. destruct w'. simpl in *. now subst.
Qed.

Lemma logCategories_lines categories w :
  logCategories categories w
  = ({| fileSystem := fileSystem w;
        stdout := stdout w ++ map categoryLine categories;
        stderr := stderr w |}, Returned tt).
Proof.
  revert w. induction categories as [|c l IH]; intro w; simpl.
  - unfold ret. rewrite app_nil_r. now destruct w.
  - unfold ioBind, consoleLog. rewrite IH. simpl. now rewrite <- app_assoc.
Qed.

Lemma argumentOr_again args i fallback j rest :
  nth_error rest j = Some (argumentOr args i fallback) ->
  argumentOr rest j fallback = argumentOr args i fallback.
Proof.
  unfold argumentOr at 2. intros ->.
  unfold argumentOr. destruct (nth_error args i) as [[|c path]|]; try reflexivity.
  - now destruct fallback.
  - now destruct fallback.
Qed.

End ShellProofs.

(** X12: when [processJsonFile] throws, it has printed nothing on the
    standard output and exactly one line, with the message of the error
    that it throws, on the standard error; and it has left the file system
    as it was unless reading, parsing and categorizing succeeded and the
    write itself failed: an unreadable, unparsable or ill-formed input
    leaves no output. *)
Theorem processJsonFile_failure (R : StringRuntime) (node : NodeRuntime)
  (inputFilePath : jsstring) (outputFilePath : option jsstring) (w w' : World) (e : error) :
  processJsonFile inputFilePath outputFilePath w = (w', Threw e) ->
  stdout w' = stdout w
  /\ stderr w' = stderr w ++ [failureLine e]
  /\ (fileSystem w' = fileSystem w
      \/ exists rawData products categorized,
           readFileSync (fileSystem w) inputFilePath = Returned rawData
           /\ JSON_parse rawData = Returned products
           /\ Dynamic.categorizeProducts products = Returned categorized
           /\ writeFileSync (fileSystem w) (outputPathOf outputFilePath)
                (JSON_stringify categorized)
              = (fileSystem w', Some e)).
Proof. apply processJsonFile_throws. Qed.

Lemma processJsonFile_failure_witness :
  stdout (fst (processJsonFile (R := latin1_runtime) (node := exampleNode)
                 (str "in.json") None
                 (@Build_World exampleNode [(str "in.json", str "{oops")] [] [])))
  = [].
Proof.
  apply (processJsonFile_failure latin1_runtime exampleNode (str "in.json") None
           (@Build_World exampleNode [(str "in.json", str "{oops")] [] [])
           _ (LibraryError (str "SyntaxError") (str "Unexpected token"))).
  reflexivity.
Defined.

(** X13: [processJsonFile] returns exactly when the input file is read,
    its text is parsed, the parsed value is categorized and the result is
    written; it returns the categories of the parsed value, the file at
    the output path ("resultado.json" when none is given) is written with
    their JSON text, one line is printed on the standard output and none
    on the standard error. *)
Theorem processJsonFile_success (R : StringRuntime) (node : NodeRuntime)
  (inputFilePath : jsstring) (outputFilePath : option jsstring) (w w' : World)
  (categorized : list DynCategory.t) :
  processJsonFile inputFilePath outputFilePath w = (w', Returned categorized)
  <-> exists rawData products,
        readFileSync (fileSystem w) inputFilePath = Returned rawData
        /\ JSON_parse rawData = Returned products
        /\ Dynamic.categorizeProducts products = Returned categorized
        /\ writeFileSync (fileSystem w) (outputPathOf outputFilePath)
             (JSON_stringify categorized)
           = (fileSystem w', None)
        /\ stdout w' = stdout w ++ [savedLine (outputPathOf outputFilePath)]
        /\ stderr w' = stderr w.
Proof. apply processJsonFile_returns. Qed.

Lemma processJsonFile_success_witness :
  processJsonFile (R := latin1_runtime) (node := exampleNode) (str "in.json") None
    (@Build_World exampleNode [(str "in.json", str "[]")] [] [])
  = ((@Build_World exampleNode [(str "resultado.json", str "[]"); (str "in.json", str "[]")] [savedLine (str "resultado.json")] []), Returned []).
Proof.
  apply (proj2 (processJsonFile_success latin1_runtime exampleNode (str "in.json") None
                  (@Build_World exampleNode [(str "in.json", str "[]")] [] []) _ [])).
  exists (str "[]"), (VArray []). repeat split.
Defined.

(** X14: [main] exits through [process.exit] exactly when the input path
    does not exist, and then with code 1: it has printed the error on the
    standard error and the usage on the standard output, and it has read
    and written no file. *)
Theorem main_input_not_found (R : StringRuntime) (node : NodeRuntime)
  (args : list jsstring) (w : World) :
  let inputPath := argumentOr args 0 (pathJoin cwd (str "data01.json")) in
  (existsSync (fileSystem w) inputPath = false ->
   main args w
   = ({| fileSystem := fileSystem w;
         stdout := stdout w ++ [usageLine];
         stderr := stderr w ++ [notFoundLine inputPath] |},
      Exited 1))
  /\ (forall code,
        snd (main args w) = Exited code ->
        existsSync (fileSystem w) inputPath = false /\ code = 1%N).
Proof.
  intro inputPath. split.
  - intro H. unfold main. fold inputPath. rewrite H. reflexivity.
  - intro code. unfold main. fold inputPath.
    destruct (existsSync (fileSystem w) inputPath); simpl.
    + destruct (processJsonFile _ _ _) as [w2 [result|e]]; simpl.
      * destruct (logCategories result _); discriminate.
      * discriminate.
    + intro E. split; [reflexivity | congruence].
Qed.

Lemma main_input_not_found_witness :
  snd (main (R := latin1_runtime) (node := exampleNode) [str ""; str "out.json"]
         (@Build_World exampleNode [(str "in.json", str "[]")] [] []))
  = Exited 1.
Proof.
  apply (f_equal snd
           (proj1 (main_input_not_found latin1_runtime exampleNode [str ""; str "out.json"]
                     (@Build_World exampleNode [(str "in.json", str "[]")] [] []))
              eq_refl)).
Defined.

(** X15: [main] reads its first two arguments only, and an argument that
    is absent or empty stands for the default path in the working
    directory. *)
Theorem main_arguments (R : StringRuntime) (node : NodeRuntime)
  (args : list jsstring) (w : World) :
  main args w
  = main [ argumentOr args 0 (pathJoin cwd (str "data01.json"));
           argumentOr args 1 (pathJoin cwd (str "resultado.json")) ] w.
Proof.
  unfold main.
  set (d0 := pathJoin cwd (str "data01.json")).
  set (d1 := pathJoin cwd (str "resultado.json")).
  assert (argumentOr [argumentOr args 0 d0; argumentOr args 1 d1] 0 d0
          = argumentOr args 0 d0) as ->
    by (apply (argumentOr_again args 0 d0 0); reflexivity).
  assert (argumentOr [argumentOr args 0 d0; argumentOr args 1 d1] 1 d1
          = argumentOr args 1 d1) as ->
    by (apply (argumentOr_again args 1 d1 1); reflexivity).
  reflexivity.
Qed.

(** X16: when the input path exists, [main] announces the file and runs
    [processJsonFile] on the two paths; if that returns, [main] prints the
    number of categories, a heading and one line for each category, in
    their order, and returns; if it throws, the error leaves [main] and
    nothing more is printed. *)
Theorem main_run (R : StringRuntime) (node : NodeRuntime)
  (args : list jsstring) (w : World) :
  let inputPath := argumentOr args 0 (pathJoin cwd (str "data01.json")) in
  let outputPath := argumentOr args 1 (pathJoin cwd (str "resultado.json")) in
  let started := {| fileSystem := fileSystem w;
                    stdout := stdout w ++ [processingLine inputPath];
                    stderr := stderr w |} in
  existsSync (fileSystem w) inputPath = true ->
  (forall w' result,
     processJsonFile inputPath (Some outputPath) started = (w', Returned result) ->
     main args w
     = ({| fileSystem := fileSystem w';
           stdout := stdout w'
                     ++ totalLine (List.length result) :: headingLine
                        :: map categoryLine result;
           stderr := stderr w' |}, Completed))
  /\ (forall w' e,
        processJsonFile inputPath (Some outputPath) started = (w', Threw e) ->
        main args w = (w', Uncaught e)).
Proof.
  intros inputPath outputPath started H. unfold main.
  fold inputPath outputPath. rewrite H. simpl. fold started. split.
  - intros w' result ->. rewrite logCategories_lines. simpl.
    now rewrite <- !app_assoc.
  - now intros w' e ->.
Qed.

Lemma main_run_witness :
  main (R := latin1_runtime) (node := exampleNode) [str "in.json"]
    (@Build_World exampleNode [(str "in.json", str "[]")] [] [])
  = ((@Build_World exampleNode [(str "/work/resultado.json", str "[]"); (str "in.json", str "[]")] [ processingLine (str "in.json");
                    savedLine (str "/work/resultado.json");
                    totalLine 0; headingLine ] []), Completed).
Proof.
  apply (proj1 (main_run latin1_runtime exampleNode [str "in.json"]
                  (@Build_World exampleNode [(str "in.json", str "[]")] [] []) eq_refl)
           (@Build_World exampleNode [(str "/work/resultado.json", str "[]");
                             (str "in.json", str "[]")] [ processingLine (str "in.json");
                          savedLine (str "/work/resultado.json") ] []) []).
  reflexivity.
Defined.

(** ** Unit words that are left *)

Lemma startsWith_head pat c s : startsWith pat (c :: s) = true -> pat = [] \/ In c pat.
Proof.
  destruct pat as [|a pat]; [now left|]. simpl. intro H.
  apply andb_true_iff in H as [H _]. apply N.eqb_eq in H. right. now left.
Qed.

Lemma includes_cons pat c s : includes pat s = true -> includes pat (c :: s) = true.
Proof. intro H. simpl. rewrite H. apply orb_true_r. Qed.

Lemma includes_segment pat a b c :
  includes pat b = true -> includes pat (a ++ b ++ c) = true.
Proof.
  intro H. destruct (includes_inv _ _ H) as [x [y ->]].
  rewrite <- !app_assoc, app_assoc. apply includes_app.
Qed.

Section ReplaceDisjoint.

Variables pat rep : jsstring.
Hypothesis pat_nonempty : pat <> [].
Hypothesis rep_nonempty : rep <> [].
Hypothesis rep_disjoint : forall c, In c rep -> ~ In c pat.

Lemma includes_after_rep s : includes pat (rep ++ s) = includes pat s.
Proof.
  clear rep_nonempty. induction rep as [|x r IH]; [reflexivity|]. simpl.
  rewrite IH by (intros c Hc; apply rep_disjoint; now right).
  destruct (startsWith pat (x :: r ++ s)) eqn:E; [|reflexivity].
  destruct (startsWith_head _ _ _ E) as [H|H]; [contradiction|].
  exfalso. apply (rep_disjoint x); [now left | exact H].
Qed.

Lemma startsWith_replaceAll_bounded n word s :
  (List.length word <= n)%nat ->
  (forall c, In c rep -> ~ In c word) ->
  startsWith word (replaceAll pat rep s) = true -> startsWith word s = true.
Proof.
  revert word s. induction n as [|n IH]; intros word s Hlen Hword H.
  - destruct word; [reflexivity | simpl in Hlen; lia].
  - destruct word as [|a word]; [reflexivity|].
    destruct (replaceAll_cases pat rep s pat_nonempty)
      as [-> | [[rest [Hs E]] | [c [s' [Hs [Hno E]]]]]].
    + discriminate H.
    + rewrite E in H. destruct rep as [|x r]; [contradiction|].
      simpl in H. apply andb_true_iff in H as [H _]. apply N.eqb_eq in H. subst x.
      exfalso. apply (Hword a); now left.
    + rewrite E in H. subst s. simpl in *.
      apply andb_true_iff in H as [-> H]. simpl.
      apply IH; [lia | | exact H].
      intros x Hx Hin. apply (Hword x Hx). now right.
Qed.

Lemma includes_replaceAll_bounded n s :
  (List.length s <= n)%nat -> includes pat (replaceAll pat rep s) = false.
Proof.
  revert s. induction n as [|n IH]; intros s Hlen.
  - destruct s; [|simpl in Hlen; lia]. destruct pat; [contradiction|reflexivity].
  - destruct (replaceAll_cases pat rep s pat_nonempty)
      as [-> | [[rest [Hs E]] | [c [s' [Hs [Hno E]]]]]].
    + destruct pat; [contradiction|reflexivity].
    + rewrite E, includes_after_rep. apply IH.
      apply (f_equal (@List.length N)) in Hs. rewrite length_app in Hs.
      destruct pat; [contradiction|]. simpl in Hs. lia.
    + rewrite E. simpl. rewrite IH by (subst s; simpl in Hlen; lia).
      rewrite orb_false_r.
      destruct (startsWith pat (c :: replaceAll pat rep s')) eqn:Hstart; [|reflexivity].
      rewrite <- E in Hstart.
      apply (startsWith_replaceAll_bounded (List.length pat)) in Hstart;
        [congruence | lia | exact rep_disjoint].
Qed.

(** When the replacement is not empty and shares no code unit with the
    pattern, no occurrence of the pattern is left. *)
Lemma includes_replaceAll s : includes pat (replaceAll pat rep s) = false.
Proof. now apply (includes_replaceAll_bounded (List.length s)). Qed.

End ReplaceDisjoint.

Lemma includes_trim pat s : includes pat s = false -> includes pat (trim s) = false.
Proof.
  intro H. destruct (includes pat (trim s)) eqn:E; [|reflexivity].
  destruct (trim_segment s) as [l [r Hs]].
  apply (includes_segment pat l (trim s) r) in E. rewrite <- Hs in E. congruence.
Qed.

(** X17: whatever the title and the runtime, the normalized title holds
    no "quilo": the only unit word that a second normalization can still
    abbreviate is "litro", and on a title of Basic Latin, Latin-1
    Supplement and combining marks normalizing twice gives the same as
    normalizing once exactly when the normalized title holds no "litro". *)
Theorem normalizeTitle_without_quilo (R : StringRuntime) (title : jsstring) :
  includes (str "quilo") (normalizeTitle title) = false
  /\ (RuntimeLaws R ->
      forallb inTables title = true ->
      (normalizeTitle (normalizeTitle title) = normalizeTitle title
       <-> includes (str "litro") (normalizeTitle title) = false)).
Proof.
  assert (includes (str "quilo") (normalizeTitle title) = false) as Hq.
  { unfold normalizeTitle. apply includes_trim, includes_replaceAll; try discriminate.
    intros c [<-|[<-|[]]]; simpl; intuition discriminate. }
  split; [exact Hq|]. intros L H.
  destruct (normalizeTitle_stable title H) as [E1 E2].
  rewrite (normalizeTitle_twice title E1 E2). tauto.
Qed.

Lemma normalizeTitle_without_quilo_witness :
  normalizeTitle (R := latin1_runtime)
    (normalizeTitle (R := latin1_runtime) (str "Arroz ququiloilo 5 Quilos"))
  = normalizeTitle (R := latin1_runtime) (str "Arroz ququiloilo 5 Quilos").
Proof.
  apply (proj2 (proj2 (normalizeTitle_without_quilo latin1_runtime
                         (str "Arroz ququiloilo 5 Quilos")) latin1_laws eq_refl)).
  reflexivity.
Defined.

(** ** Titles that are already normalized *)

Lemma noHyphen_spec s : noHyphen s = true <-> ~ In 45 s.
Proof.
  unfold noHyphen. induction s as [|c s IH]; simpl; [tauto|].
  rewrite andb_true_iff, IH, negb_true_iff, N.eqb_neq. intuition congruence.
Qed.

Section FixedPointProofs.

Context {R : StringRuntime} {L : RuntimeLaws R}.

Lemma normalizeTitle_stableUnits title :
  forallb inTables title = true -> forallb stableUnit (normalizeTitle title) = true.
Proof.
  intro H. apply forallb_forall, Forall_forall.
  apply Forall_normalizeTitle; try reflexivity.
  apply Forall_forall, forallb_forall.
  rewrite (toLowerCase_tables title H).
  rewrite (normalizeNFD_tables _ (forallb_map_inTables _ H)).
  now apply stable_unaccented.
Qed.

Lemma normalizeTitle_of_normal t :
  forallb stableUnit t = true -> noHyphen t = true -> collapsed t = true ->
  headIsSpace t = false -> headIsSpace (rev t) = false ->
  includes (str "litro") t = false -> includes (str "quilo") t = false ->
  normalizeTitle t = t.
Proof.
  intros Hst Hhy Hco Hhd Htl Hl Hq.
  destruct (stable_fixed _ Hst) as [E1 [E2 E3]].
  unfold normalizeTitle.
  rewrite (toLowerCase_tables _ E3), E1, (normalizeNFD_tables _ E3), E2.
  rewrite (replaceHyphens_fixed _ (proj1 (noHyphen_spec t) Hhy)).
  rewrite (collapsed_fixed _ Hco), (replaceAll_absent _ _ _ Hl).
  rewrite (replaceAll_absent _ _ _ Hq). now apply trim_fixed.
Qed.

End FixedPointProofs.

(** X18: the titles of Basic Latin, Latin-1 Supplement and combining
    marks that [normalizeTitle] leaves as they are, are exactly those that
    are in lower case without accent and without hyphen, whose white space
    is single spaces between words, and that hold neither "litro" nor
    "quilo". *)
Theorem normalizeTitle_fixed_points (R : StringRuntime) (L : RuntimeLaws R)
  (t : jsstring) :
  forallb inTables t = true ->
  (normalizeTitle t = t
   <-> forallb stableUnit t = true /\ noHyphen t = true /\ collapsed t = true
       /\ headIsSpace t = false /\ headIsSpace (rev t) = false
       /\ includes (str "litro") t = false /\ includes (str "quilo") t = false).
Proof.
  intro H. split.
  - intro E.
    pose proof (normalizeTitle_stableUnits t H) as Hst.
    destruct (normalizeTitle_shape t) as [Hhy [Hco [Hhd Htl]]].
    destruct (normalizeTitle_stable t H) as [E1 E2].
    pose proof (proj1 (normalizeTitle_twice t E1 E2)) as Hunits.
    rewrite E in *. destruct (Hunits E) as [Hl Hq].
    repeat split; try assumption. now apply noHyphen_spec.
  - intros [Hst [Hhy [Hco [Hhd [Htl [Hl Hq]]]]]]. now apply normalizeTitle_of_normal.
Qed.

Lemma normalizeTitle_fixed_points_witness :
  normalizeTitle (R := latin1_runtime) (str "leite semi desnatado italac 1 l")
  = str "leite semi desnatado italac 1 l".
Proof.
  apply (proj2 (normalizeTitle_fixed_points latin1_runtime latin1_laws
                  (str "leite semi desnatado italac 1 l") eq_refl)).
  repeat split.
Defined.
